(** * TPEPAnalyzer: prime factorisation, totient and divisor sum

    A shallow embedding of [tpep_theory.py].  Python integers are
    unbounded, so they are [Z]; the dictionary [_factors] is an
    insertion-ordered association list (Python dictionaries iterate in
    insertion order, and the totient loop iterates over the keys); the two
    nested [while] loops of [_get_prime_factors] take fuel, so that a run
    which does not stop is a value of the model ([Diverge]) and
    termination is a theorem; exceptions are the [Raise] outcome; floats
    are IEEE-754 binary64 values ([spec_float] at precision 53). *)

From Stdlib Require Import ZArith List Lia Znumtheory Bool String QArith.
From Stdlib Require Import Sorted Permutation.
From Stdlib Require Import Floats.SpecFloat.
From mathcomp Require ssreflect ssrfun ssrbool eqtype ssrnat seq div prime path bigop.
Import ListNotations.

Local Open Scope Z_scope.

(** ** Outcomes of a Python computation *)

Inductive exn : Type :=
| ValueError (msg : string)
| ZeroDivisionError (msg : string).

Inductive outcome (A : Type) : Type :=
| Return (a : A)
| Raise (e : exn)
| Diverge.

Arguments Return {A} a.
Arguments Raise {A} e.
Arguments Diverge {A}.

Definition bind {A B : Type} (m : outcome A) (k : A -> outcome B) : outcome B :=
  match m with
  | Return a => k a
  | Raise e => Raise e
  | Diverge => Diverge
  end.

Notation "x <- m ;; k" := (bind m (fun x => k))
  (at level 61, m at next level, right associativity).
Notation "' pat <- m ;; k" := (bind m (fun x => match x with pat => k end))
  (at level 61, pat pattern, m at next level, right associativity).

(** ** Integer operators

    [a // b] and [a % b] on Python integers: floor division and the
    remainder with the sign of the divisor, which is what [Z.div] and
    [Z.modulo] compute; both raise on a zero divisor. *)

Definition floordiv (a b : Z) : outcome Z :=
  if b =? 0 then Raise (ZeroDivisionError "integer division or modulo by zero")
  else Return (a / b).

Definition pymod (a b : Z) : outcome Z :=
  if b =? 0 then Raise (ZeroDivisionError "integer division or modulo by zero")
  else Return (a mod b).

(** ** Dictionaries with integer keys, in insertion order *)

Definition dict : Type := list (Z * Z).

(** [factors.get(k, default)] *)
Fixpoint dict_get (factors : dict) (k default : Z) : Z :=
  match factors with
  | [] => default
  | (k', v) :: rest => if k' =? k then v else dict_get rest k default
  end.

(** [factors[k] = v]: an existing key keeps its place, a new one goes last. *)
Fixpoint dict_set (factors : dict) (k v : Z) : dict :=
  match factors with
  | [] => [(k, v)]
  | (k', v') :: rest =>
      if k' =? k then (k', v) :: rest else (k', v') :: dict_set rest k v
  end.

(** [factors.keys()] and [factors.items()] *)
Definition keys (factors : dict) : list Z := map fst factors.
Definition items (factors : dict) : list (Z * Z) := factors.

(** ** [_get_prime_factors] *)

(** The inner loop [while temp % d == 0: factors[d] = factors.get(d, 0) + 1;
    temp //= d].  The state is [(factors, temp)]. *)
Fixpoint inner_loop (fuel : nat) (factors : dict) (d temp : Z)
  : outcome (dict * Z) :=
  match fuel with
  | O => Diverge
  | S fuel' =>
      r <- pymod temp d ;;
      if r =? 0 then
        let factors' := dict_set factors d (dict_get factors d 0 + 1) in
        temp' <- floordiv temp d ;;
        inner_loop fuel' factors' d temp'
      else Return (factors, temp)
  end.

(** The outer loop [while d * d <= temp: <inner loop>; d += 1].  The inner
    loop runs to its own exit before the outer guard is looked at again. *)
Fixpoint outer_loop (fuel : nat) (factors : dict) (d temp : Z)
  : outcome (dict * Z) :=
  match fuel with
  | O => Diverge
  | S fuel' =>
      if d * d <=? temp then
        '(factors', temp') <- inner_loop fuel' factors d temp ;;
        outer_loop fuel' factors' (d + 1) temp'
      else Return (factors, temp)
  end.

Definition _get_prime_factors (fuel : nat) (n : Z) : outcome dict :=
  '(factors, temp) <- outer_loop fuel [] 2 n ;;
  if temp >? 1 then Return (dict_set factors temp (dict_get factors temp 0 + 1))
  else Return factors.

(** ** [_calculate_phi] and [_calculate_sigma] *)

(** [for p in self._factors.keys(): result = result * (p - 1) // p] *)
Fixpoint phi_loop (ps : list Z) (result : Z) : outcome Z :=
  match ps with
  | [] => Return result
  | p :: ps' => result' <- floordiv (result * (p - 1)) p ;; phi_loop ps' result'
  end.

Definition _calculate_phi (n : Z) (factors : dict) : outcome Z :=
  phi_loop (keys factors) n.

(** [for p, a in self._factors.items():
       total *= (p**(a + 1) - 1) // (p - 1)] *)
Fixpoint sigma_loop (its : list (Z * Z)) (total : Z) : outcome Z :=
  match its with
  | [] => Return total
  | (p, a) :: its' =>
      g <- floordiv (p ^ (a + 1) - 1) (p - 1) ;;
      sigma_loop its' (total * g)
  end.

Definition _calculate_sigma (factors : dict) : outcome Z :=
  sigma_loop (items factors) 1.

(** ** The analyzer *)

Record TPEPAnalyzer : Type := mkTPEPAnalyzer {
  n : Z;
  _factors : dict;
  phi_val : Z;
  sigma_val : Z
}.

(** [__init__]: the guard, then the three cached values in source order. *)
Definition init (fuel : nat) (n : Z) : outcome TPEPAnalyzer :=
  if n <? 1 then Raise (ValueError "TPEP only applies to positive integers.")
  else
    factors <- _get_prime_factors fuel n ;;
    phi <- _calculate_phi n factors ;;
    sigma <- _calculate_sigma factors ;;
    Return (mkTPEPAnalyzer n factors phi sigma).

(** ** Floats and true division

    A Python [float] is an IEEE-754 binary64 number.  The operations are
    those of [SpecFloat] at precision 53 and maximal exponent 1024, which
    round to nearest, ties to even. *)

Definition float : Type := spec_float.
Definition prec : Z := 53.
Definition emax : Z := 1024.

(** An integer as a mantissa with exponent 0.  The mantissa may be wider
    than 53 bits: [SFdiv] shifts the dividend by the difference of the bit
    lengths and rounds once, so the quotient below is the correctly
    rounded quotient of the two integers, which is what CPython's
    [int.__truediv__] computes for operands of any size. *)
Definition Z2SF (z : Z) : float :=
  match z with
  | Z0 => S754_zero false
  | Zpos m => S754_finite false m 0
  | Zneg m => S754_finite true m 0
  end.

(** [a / b] on integers.  The single exception modelled is the zero
    divisor; a quotient beyond the binary64 range is the IEEE infinity
    here (CPython raises [OverflowError] for it, which needs
    [|a| >= (2^1024 - 2^970) * |b|]). *)
Definition true_divide (a b : Z) : outcome float :=
  if b =? 0 then Raise (ZeroDivisionError "division by zero")
  else Return (SFdiv prec emax (Z2SF a) (Z2SF b)).

(** A float literal with an integer value, in canonical form. *)
Definition float_of_Z (z : Z) : float := binary_normalize prec emax z 0 false.

(** The literal [1e-9]: the binary64 number nearest to 10^-9. *)
Definition float_1e_9 : float :=
  SFdiv prec emax (float_of_Z 1) (float_of_Z 1000000000).

Definition is_inf (x : float) : bool :=
  match x with S754_infinity _ => true | _ => false end.

(** [math.isclose(a, b, rel_tol=rel_tol)] with the default [abs_tol=0.0],
    for a non-negative [rel_tol], as in CPython's [math] module. *)
Definition isclose (a b rel_tol : float) : bool :=
  if SFeqb a b then true
  else if is_inf a || is_inf b then false
  else
    let diff := SFabs (SFsub prec emax b a) in
    SFleb diff (SFabs (SFmul prec emax rel_tol b))
    || SFleb diff (SFabs (SFmul prec emax rel_tol a))
    || SFleb diff (float_of_Z 0).

(** ** The metrics *)

Definition totient_density (self : TPEPAnalyzer) : outcome float :=
  true_divide (phi_val self) (n self).

Definition perfection_ratio (self : TPEPAnalyzer) : outcome float :=
  true_divide (sigma_val self) (n self).

Definition tpep_ratio (self : TPEPAnalyzer) : outcome float :=
  true_divide (sigma_val self) (phi_val self).

Definition mirror_gap (self : TPEPAnalyzer) : outcome float :=
  rho <- perfection_ratio self ;;
  tau <- totient_density self ;;
  Return (SFadd prec emax rho tau).

(** ** [report]

    The two labels [report] computes before formatting: [parity] and
    [status].  The formatted text itself is not modelled. *)

Definition report_parity (self : TPEPAnalyzer) : outcome string :=
  r <- pymod (n self) 2 ;;
  Return (if negb (r =? 0) then "ODD"%string else "EVEN"%string).

Definition report_status (self : TPEPAnalyzer) : outcome string :=
  ratio <- tpep_ratio self ;;
  let is_tpep_stable := isclose ratio (float_of_Z 4) float_1e_9 in
  Return (if is_tpep_stable then "PERFECT (Stable)"%string
          else "IMPERFECT (Unstable)"%string).


(** * The vocabulary of the properties *)

(** ** Factor mappings *)

(** The product of [p^e] over the entries of a factor mapping. *)
Fixpoint dict_prod (factors : dict) : Z :=
  match factors with
  | [] => 1
  | (p, e) :: rest => p ^ e * dict_prod rest
  end.

(** A factor mapping is well formed when its keys are pairwise distinct
    primes and its exponents are at least 1. *)
Definition prime_powers (factors : dict) : Prop :=
  NoDup (keys factors) /\
  Forall (fun pe => Z.prime (fst pe) /\ 1 <= snd pe) factors.

(** ** The state of trial division *)

(** No integer of [[2, d)] divides [temp]: what the outer loop has
    established about [temp] when it reaches the divisor [d]. *)
Definition no_divisor_below (d temp : Z) : Prop :=
  forall k, 2 <= k < d -> ~ (k | temp).

(** The state of the factorisation between two statements: the factors
    found so far times what remains is the number being factored. *)
Record factoring (m : Z) (factors : dict) (d temp : Z) : Prop := {
  fact_d : 2 <= d;
  fact_temp : 1 <= temp;
  fact_prod : dict_prod factors * temp = m;
  fact_wf : prime_powers factors;
  fact_none : no_divisor_below d temp
}.

(** ** Closed forms of the two folds *)

(** The totient of a product of prime powers: each [p^e] contributes
    [(p - 1) * p^(e - 1)]. *)
Fixpoint phi_prod (factors : dict) : Z :=
  match factors with
  | [] => 1
  | (p, e) :: rest => (p - 1) * p ^ (e - 1) * phi_prod rest
  end.

(** [1 + p + ... + p^k] *)
Fixpoint geom_sum (p : Z) (k : nat) : Z :=
  match k with
  | O => 1
  | S k' => geom_sum p k' + p ^ Z.of_nat k
  end.

(** The divisor sum of a product of prime powers: each [p^e] contributes
    [1 + p + ... + p^e]. *)
Fixpoint sigma_prod (factors : dict) : Z :=
  match factors with
  | [] => 1
  | (p, e) :: rest => geom_sum p (Z.to_nat e) * sigma_prod rest
  end.

(** ** The two arithmetic functions, by counting and summing over [[1, m]] *)

(** The integers [1, 2, ..., m]. *)
Definition range1 (m : Z) : list Z := map Z.of_nat (seq 1 (Z.to_nat m)).

(** Euler's totient: the count of integers in [[1, m]] coprime to [m]. *)
Definition coprime_count (m : Z) : Z :=
  Z.of_nat (List.length (filter (fun k => Z.gcd k m =? 1) (range1 m))).

(** The sum of all positive divisors of [m], [m] itself included. *)
Definition divisor_sum (m : Z) : Z :=
  fold_right Z.add 0 (filter (fun d => m mod d =? 0) (range1 m)).

(** ** Constructed instances *)

(** [TPEPAnalyzer(m)] returns the instance [a]. *)
Definition constructed (m : Z) (a : TPEPAnalyzer) : Prop :=
  exists fuel, init fuel m = Return a.

(** The product of [(p - 1) / p] over a list of primes, as a rational. *)
Fixpoint totient_ratio (ps : list Z) : Q :=
  match ps with
  | [] => 1%Q
  | p :: ps' => (((p - 1) # Z.to_pos p) * totient_ratio ps')%Q
  end.

(** The number [2^28 * (2^29 - 3)]; [2^29 - 3] is prime. *)
Definition near_perfect : Z := 144115187270549504.

(** ** Euclid's even perfect numbers *)


(** ** The same on [nat], in MathComp's terms *)

Module NatDefs.
Import ssreflect ssrfun ssrbool eqtype ssrnat seq div prime path bigop.
Local Close Scope Z_scope.
Local Open Scope nat_scope.

(** The sum of the divisors of [m]. *)
Definition sigma (m : nat) : nat := \sum_(d <- divisors m) d.

(** The product of the prime powers of a list of pairs. *)
Definition pp_prod (l : seq (nat * nat)) : nat := \prod_(x <- l) x.1 ^ x.2.

(** A factor mapping as a list of pairs of naturals. *)
Definition nat_factors (factors : dict) : seq (nat * nat) :=
  [seq (Z.to_nat pe.1, Z.to_nat pe.2) | pe <- factors].

(** Keys at least 2 and exponents at least 1. *)
Definition bounded_factors (factors : dict) : Prop :=
  List.Forall (fun pe => (2 <= pe.1 /\ 1 <= pe.2)%Z) factors.

End NatDefs.

(** * Properties of the model *)

(** ** The scenarios of the specification, by evaluation *)

Example init_28 :
  init 10 28 = Return (mkTPEPAnalyzer 28 [(2, 2); (7, 1)] 12 56).
Proof. reflexivity. Qed.

Example init_945 :
  init 10 945 = Return (mkTPEPAnalyzer 945 [(3, 3); (5, 1); (7, 1)] 432 1920).
Proof. reflexivity. Qed.

Example init_1 : init 1 1 = Return (mkTPEPAnalyzer 1 [] 1 1).
Proof. reflexivity. Qed.

Example init_13 : init 10 13 = Return (mkTPEPAnalyzer 13 [(13, 1)] 12 14).
Proof. reflexivity. Qed.

Example coprime_count_28 : coprime_count 28 = 12.
Proof. reflexivity. Qed.

Example divisor_sum_28 : divisor_sum 28 = 56.
Proof. reflexivity. Qed.

(** True division against the quotients CPython prints, as
    [mantissa * 2^exponent]: small operands, operands wider than 53 bits,
    and ties, which go to the even mantissa. *)
Example true_divide_1_3 :
  true_divide 1 3 = Return (S754_finite false 6004799503160661 (-54)).
Proof. reflexivity. Qed.

Example true_divide_wide :
  true_divide (2 ^ 60 + 1) 3 = Return (S754_finite false 6004799503160661 6) /\
  true_divide (10 ^ 30) 7 = Return (S754_finite false 8120488408686859 44) /\
  true_divide 3 (2 ^ 80) = Return (S754_finite false 6755399441055744 (-131)).
Proof. repeat split; vm_compute; reflexivity. Qed.

Example true_divide_ties :
  true_divide (2 ^ 53 + 1) 1 = Return (S754_finite false 4503599627370496 1) /\
  true_divide (2 ^ 53 + 3) 1 = Return (S754_finite false 4503599627370498 1).
Proof. repeat split; vm_compute; reflexivity. Qed.

Example true_divide_by_zero :
  true_divide 7 0 = Raise (ZeroDivisionError "division by zero").
Proof. reflexivity. Qed.

(** Scenario 1 of the specification, [n = 28]: the two ratios and their
    sum, the mirror gap. *)
Example metrics_28 :
  let a := mkTPEPAnalyzer 28 [(2, 2); (7, 1)] 12 56 in
  perfection_ratio a = Return (float_of_Z 2) /\
  totient_density a = Return (S754_finite false 7720456504063707 (-54)) /\
  mirror_gap a = Return (S754_finite false 5468656690378459 (-51)).
Proof. repeat split; vm_compute; reflexivity. Qed.

(** Scenario 3, [n = 945]: the report labels it IMPERFECT (Unstable), ODD. *)
Example report_945 :
  let a := mkTPEPAnalyzer 945 [(3, 3); (5, 1); (7, 1)] 432 1920 in
  tpep_ratio a = Return (S754_finite false 5003999585967218 (-50)) /\
  report_status a = Return "IMPERFECT (Unstable)"%string /\
  report_parity a = Return "ODD"%string.
Proof. repeat split; vm_compute; reflexivity. Qed.

(** ** Fuel

    More fuel never changes the outcome of a run that did not exhaust it. *)

Lemma inner_loop_mono (fuel fuel' : nat) (factors : dict) (d temp : Z)
    (r : outcome (dict * Z)) :
  inner_loop fuel factors d temp = r -> r <> Diverge -> (fuel <= fuel')%nat ->
  inner_loop fuel' factors d temp = r.
Proof.
  revert fuel' factors temp.
  induction fuel as [|fuel IH]; intros fuel' factors temp Hrun Hr Hle.
  - simpl in Hrun. congruence.
  - destruct fuel' as [|fuel']; [lia|].
    simpl in *. unfold pymod, floordiv, bind in *.
    destruct (d =? 0); [assumption|].
    destruct (temp mod d =? 0); [|assumption].
    apply IH; [assumption | assumption | lia].
Qed.

Lemma outer_loop_mono (fuel fuel' : nat) (factors : dict) (d temp : Z)
    (r : outcome (dict * Z)) :
  outer_loop fuel factors d temp = r -> r <> Diverge -> (fuel <= fuel')%nat ->
  outer_loop fuel' factors d temp = r.
Proof.
  revert fuel' factors d temp.
  induction fuel as [|fuel IH]; intros fuel' factors d temp Hrun Hr Hle.
  - simpl in Hrun. congruence.
  - destruct fuel' as [|fuel']; [lia|].
    simpl in *.
    destruct (d * d <=? temp); [|assumption].
    destruct (inner_loop fuel factors d temp) as [[fs t]|e|] eqn:Hin.
    + rewrite (inner_loop_mono fuel fuel' factors d temp (Return (fs, t)));
        [|assumption|discriminate|lia].
      simpl in *. apply IH; [assumption | assumption | lia].
    + rewrite (inner_loop_mono fuel fuel' factors d temp (Raise e));
        [|assumption|discriminate|lia].
      assumption.
    + simpl in Hrun. congruence.
Qed.

Lemma _get_prime_factors_mono (fuel fuel' : nat) (m : Z) (r : outcome dict) :
  _get_prime_factors fuel m = r -> r <> Diverge -> (fuel <= fuel')%nat ->
  _get_prime_factors fuel' m = r.
Proof.
  unfold _get_prime_factors. intros Hrun Hr Hle.
  destruct (outer_loop fuel [] 2 m) as [[fs t]|e|] eqn:Hout.
  - rewrite (outer_loop_mono fuel fuel' [] 2 m (Return (fs, t)));
      [assumption|assumption|discriminate|lia].
  - rewrite (outer_loop_mono fuel fuel' [] 2 m (Raise e));
      [assumption|assumption|discriminate|lia].
  - simpl in Hrun. congruence.
Qed.

Lemma init_mono (fuel fuel' : nat) (m : Z) (r : outcome TPEPAnalyzer) :
  init fuel m = r -> r <> Diverge -> (fuel <= fuel')%nat -> init fuel' m = r.
Proof.
  unfold init. intros Hrun Hr Hle.
  destruct (m <? 1); [assumption|].
  destruct (_get_prime_factors fuel m) as [fs|e|] eqn:Hf.
  - rewrite (_get_prime_factors_mono fuel fuel' m (Return fs));
      [assumption|assumption|discriminate|lia].
  - rewrite (_get_prime_factors_mono fuel fuel' m (Raise e));
      [assumption|assumption|discriminate|lia].
  - simpl in Hrun. congruence.
Qed.

(** Two runs that both finish agree, whatever their fuel. *)
Lemma init_deterministic (fuel fuel' : nat) (m : Z) (r r' : outcome TPEPAnalyzer) :
  init fuel m = r -> init fuel' m = r' -> r <> Diverge -> r' <> Diverge -> r = r'.
Proof.
  intros H H' Hr Hr'.
  pose proof (init_mono fuel (Nat.max fuel fuel') m r H Hr (Nat.le_max_l _ _)) as E.
  pose proof (init_mono fuel' (Nat.max fuel fuel') m r' H' Hr' (Nat.le_max_r _ _)) as E'.
  congruence.
Qed.

(** ** Dictionaries *)

Lemma dict_get_absent (factors : dict) (k default : Z) :
  ~ In k (keys factors) -> dict_get factors k default = default.
Proof.
  induction factors as [|[k' v] rest IH]; simpl; intros Hk; [reflexivity|].
  destruct (Z.eqb_spec k' k) as [->|Hne]; [tauto|].
  apply IH. tauto.
Qed.

Lemma keys_dict_set_present (factors : dict) (k v : Z) :
  In k (keys factors) -> keys (dict_set factors k v) = keys factors.
Proof.
  induction factors as [|[k' v'] rest IH]; simpl; intros Hk; [tauto|].
  destruct (Z.eqb_spec k' k) as [->|Hne]; simpl; [reflexivity|].
  f_equal. apply IH. destruct Hk; [congruence|assumption].
Qed.

Lemma dict_set_absent (factors : dict) (k v : Z) :
  ~ In k (keys factors) -> dict_set factors k v = factors ++ [(k, v)].
Proof.
  induction factors as [|[k' v'] rest IH]; simpl; intros Hk; [reflexivity|].
  destruct (Z.eqb_spec k' k) as [->|Hne]; [tauto|].
  f_equal. apply IH. tauto.
Qed.

Lemma dict_prod_app (fs gs : dict) :
  dict_prod (fs ++ gs) = dict_prod fs * dict_prod gs.
Proof.
  induction fs as [|[p e] rest IH]; cbn [dict_prod app]; [ring|].
  rewrite IH. ring.
Qed.

(** Counting one more factor [k]: the statement [factors[k] =
    factors.get(k, 0) + 1] multiplies the product by [k]. *)
Lemma dict_prod_incr (factors : dict) (k : Z) :
  Forall (fun pe => 1 <= snd pe) factors ->
  dict_prod (dict_set factors k (dict_get factors k 0 + 1))
  = dict_prod factors * k.
Proof.
  induction factors as [|[k' v'] rest IH]; cbn [dict_set dict_get dict_prod];
    intros Hall.
  - rewrite Z.add_0_l, Z.pow_1_r. ring.
  - inversion Hall as [|x l Hv Hrest]; subst. cbn [snd] in Hv.
    destruct (Z.eqb_spec k' k) as [->|Hne]; cbn [dict_prod].
    + rewrite Z.pow_add_r by lia. rewrite Z.pow_1_r. ring.
    + rewrite IH by assumption. ring.
Qed.

Lemma keys_incr (factors : dict) (k : Z) (x : Z) :
  In x (keys (dict_set factors k (dict_get factors k 0 + 1))) <->
  In x (keys factors) \/ x = k.
Proof.
  induction factors as [|[k' v'] rest IH]; simpl.
  - intuition.
  - destruct (Z.eqb_spec k' k) as [->|Hne]; simpl.
    + intuition.
    + rewrite IH. intuition.
Qed.

Lemma NoDup_keys_incr (factors : dict) (k : Z) :
  NoDup (keys factors) ->
  NoDup (keys (dict_set factors k (dict_get factors k 0 + 1))).
Proof.
  induction factors as [|[k' v'] rest IH]; simpl; intros Hnd.
  - constructor; [simpl; tauto | constructor].
  - inversion Hnd as [|x l Hnotin Hrest]; subst.
    destruct (Z.eqb_spec k' k) as [->|Hne]; simpl.
    + constructor; assumption.
    + constructor; [|apply IH; assumption].
      intros Hin. apply keys_incr in Hin. destruct Hin; [tauto|congruence].
Qed.

Lemma prime_powers_incr (factors : dict) (k : Z) :
  Z.prime k -> prime_powers factors ->
  prime_powers (dict_set factors k (dict_get factors k 0 + 1)).
Proof.
  intros Hk [Hnd Hall]. split; [apply NoDup_keys_incr; assumption|].
  clear Hnd.
  induction factors as [|[k' v'] rest IH]; simpl.
  - constructor; [simpl; split; [assumption|lia] | constructor].
  - inversion Hall as [|x l [Hp Hv] Hrest]; subst. simpl in Hp, Hv.
    destruct (Z.eqb_spec k' k) as [->|Hne].
    + constructor; [simpl; split; [assumption|lia] | assumption].
    + constructor; [simpl; tauto | apply IH; assumption].
Qed.

Lemma prime_powers_exponents (factors : dict) :
  prime_powers factors -> Forall (fun pe => 1 <= snd pe) factors.
Proof.
  intros [_ Hall]. eapply Forall_impl; [|exact Hall].
  intros pe [_ H]. exact H.
Qed.

(** ** Trial division *)

Lemma no_divisor_below_prime (d temp : Z) :
  2 <= d -> no_divisor_below d temp -> (d | temp) -> Z.prime d.
Proof.
  intros Hd Hno Hdiv. split; [lia|].
  intros k Hk Hkd. apply (Hno k); [lia|].
  eapply Z.divide_trans; eassumption.
Qed.

Lemma no_divisor_below_divide (d temp temp' : Z) :
  no_divisor_below d temp -> (temp' | temp) -> no_divisor_below d temp'.
Proof.
  intros Hno Hdiv k Hk Hkd. apply (Hno k Hk).
  eapply Z.divide_trans; eassumption.
Qed.

(** When the outer guard [d * d <= temp] fails, what is left is 1 or a
    prime that is at least [d]. *)
Lemma no_divisor_below_exit (d temp : Z) :
  2 <= d -> 1 < temp -> temp < d * d -> no_divisor_below d temp ->
  Z.prime temp /\ d <= temp.
Proof.
  intros Hd Ht Hexit Hno.
  assert (Hdt : d <= temp).
  { destruct (Z_le_gt_dec d temp) as [H|H]; [exact H|].
    exfalso. apply (Hno temp); [lia | apply Z.divide_refl]. }
  split; [|exact Hdt].
  split; [lia|].
  intros k Hk [c Hc].
  assert (Hkd : d <= k).
  { destruct (Z_le_gt_dec d k) as [H|H]; [exact H|].
    exfalso. apply (Hno k); [lia | exists c; exact Hc]. }
  assert (Hc2 : 2 <= c) by nia.
  assert (Hcd : d <= c).
  { destruct (Z_le_gt_dec d c) as [H|H]; [exact H|].
    exfalso. apply (Hno c); [lia | exists k; lia]. }
  nia.
Qed.

(** The inner loop stops, having divided [temp] by [d] as often as it
    can; it never makes [temp] larger. *)
Lemma inner_loop_spec (m : Z) (bound : nat) :
  forall (factors : dict) (d temp : Z),
    (Z.to_nat temp <= bound)%nat ->
    factoring m factors d temp ->
    exists fuel factors' temp',
      inner_loop fuel factors d temp = Return (factors', temp') /\
      factoring m factors' d temp' /\ temp' <= temp /\ ~ (d | temp') /\
      (forall x, In x (keys factors') -> In x (keys factors) \/ x = d).
Proof.
  induction bound as [|bound IH]; intros factors d temp Hb [Hd Ht Hp Hwf Hno];
    [lia|].
  destruct (Z.eq_dec (temp mod d) 0) as [Hmod|Hmod].
  - assert (Hdiv : (d | temp)) by (apply Z.mod_divide; [lia|exact Hmod]).
    assert (Hq : temp = d * (temp / d)) by (apply Z_div_exact_full_2; [lia|exact Hmod]).
    assert (Hq1 : 1 <= temp / d) by nia.
    assert (Hlt : temp / d < temp) by (apply Z.div_lt; lia).
    destruct (IH (dict_set factors d (dict_get factors d 0 + 1)) d (temp / d))
      as (fuel & fs' & t' & Hrun & Hf & Hle & Hnd & Hkeys).
    + lia.
    + split; try assumption.
      * rewrite dict_prod_incr by (apply prime_powers_exponents; exact Hwf).
        rewrite <- Hp. rewrite Hq at 2. ring.
      * apply prime_powers_incr; [|exact Hwf].
        eapply no_divisor_below_prime; eassumption.
      * eapply no_divisor_below_divide; [exact Hno|].
        exists d. exact Hq.
    + exists (S fuel), fs', t'.
      split; [|split; [exact Hf|split; [lia|split; [exact Hnd|]]]].
      * cbn [inner_loop]. unfold pymod, floordiv.
        replace (d =? 0) with false by (symmetry; apply Z.eqb_neq; lia).
        cbn [bind]. rewrite Hmod. cbn [Z.eqb]. exact Hrun.
      * intros x Hx. destruct (Hkeys x Hx) as [H|H]; [|right; exact H].
        apply keys_incr in H. exact H.
  - exists 1%nat, factors, temp.
    split; [|split; [split; assumption|split; [lia|split]]].
    + cbn [inner_loop]. unfold pymod.
      replace (d =? 0) with false by (symmetry; apply Z.eqb_neq; lia).
      cbn [bind].
      replace (temp mod d =? 0) with false by (symmetry; apply Z.eqb_neq; exact Hmod).
      reflexivity.
    + intros Hdiv. apply Hmod. apply Z.mod_divide; [lia|exact Hdiv].
    + intros x Hx. left. exact Hx.
Qed.

(** The outer loop stops: [d] grows by one per iteration while [temp]
    never grows, so [temp + 1 - d] bounds the iterations left. *)
Lemma outer_loop_spec (m : Z) (bound : nat) :
  forall (factors : dict) (d temp : Z),
    (Z.to_nat (temp + 1 - d) <= bound)%nat ->
    factoring m factors d temp ->
    (forall x, In x (keys factors) -> x < d) ->
    exists fuel factors' temp',
      outer_loop fuel factors d temp = Return (factors', temp') /\
      dict_prod factors' * temp' = m /\ prime_powers factors' /\
      (temp' = 1 \/ (Z.prime temp' /\ forall x, In x (keys factors') -> x < temp')).
Proof.
  induction bound as [|bound IH]; intros factors d temp Hb Hf Hkeys.
  - destruct Hf as [Hd Ht Hp Hwf Hno].
    exists 1%nat, factors, temp.
    assert (Hguard : (d * d <=? temp) = false) by (apply Z.leb_gt; nia).
    cbn [outer_loop]. rewrite Hguard.
    split; [reflexivity|split; [exact Hp|split; [exact Hwf|]]].
    destruct (Z.eq_dec temp 1) as [H1|H1]; [left; exact H1|right].
    destruct (no_divisor_below_exit d temp) as [Hprime Hdt];
      [exact Hd|lia|nia|exact Hno|].
    split; [exact Hprime|]. intros x Hx. specialize (Hkeys x Hx). lia.
  - destruct (Z_le_gt_dec (d * d) temp) as [Hguard|Hguard].
    + destruct (inner_loop_spec m (Z.to_nat temp) factors d temp (le_n _) Hf)
        as (f1 & fs1 & t1 & Hrun1 & Hf1 & Hle1 & Hnd1 & Hkeys1).
      pose proof Hf as [Hd Ht Hp Hwf Hno].
      destruct Hf1 as [_ Ht1 Hp1 Hwf1 Hno1].
      destruct (IH fs1 (d + 1) t1) as (f2 & fs2 & t2 & Hrun2 & Hp2 & Hwf2 & Hend).
      * nia.
      * split; try assumption; [lia|].
        intros k Hk Hdiv. destruct (Z.eq_dec k d) as [->|Hkd]; [tauto|].
        apply (Hno1 k); [lia|exact Hdiv].
      * intros x Hx. destruct (Hkeys1 x Hx) as [H|H]; [specialize (Hkeys x H)|]; lia.
      * exists (S (Nat.max f1 f2)), fs2, t2.
        split; [|split; [exact Hp2|split; [exact Hwf2|exact Hend]]].
        cbn [outer_loop].
        replace (d * d <=? temp) with true by (symmetry; apply Z.leb_le; exact Hguard).
        rewrite (inner_loop_mono f1 (Nat.max f1 f2) factors d temp (Return (fs1, t1)));
          [|exact Hrun1|discriminate|apply Nat.le_max_l].
        cbn [bind].
        apply (outer_loop_mono f2); [exact Hrun2|discriminate|apply Nat.le_max_r].
    + destruct Hf as [Hd Ht Hp Hwf Hno].
      exists 1%nat, factors, temp.
      assert (Hg : (d * d <=? temp) = false) by (apply Z.leb_gt; lia).
      cbn [outer_loop]. rewrite Hg.
      split; [reflexivity|split; [exact Hp|split; [exact Hwf|]]].
      destruct (Z.eq_dec temp 1) as [H1|H1]; [left; exact H1|right].
      destruct (no_divisor_below_exit d temp) as [Hprime Hdt];
        [exact Hd|lia|lia|exact Hno|].
      split; [exact Hprime|]. intros x Hx. specialize (Hkeys x Hx). lia.
Qed.

Lemma _get_prime_factors_spec (m : Z) :
  1 <= m ->
  exists fuel factors,
    _get_prime_factors fuel m = Return factors /\
    dict_prod factors = m /\ prime_powers factors.
Proof.
  intros Hm.
  destruct (outer_loop_spec m (Z.to_nat (m + 1 - 2)) [] 2 m (le_n _))
    as (fuel & fs & t & Hrun & Hp & Hwf & Hend).
  - split.
    + lia.
    + exact Hm.
    + cbn [dict_prod]. lia.
    + split; [constructor|constructor].
    + intros k Hk. lia.
  - intros x [].
  - exists fuel. unfold _get_prime_factors. rewrite Hrun. cbn [bind].
    destruct Hend as [->|[Hprime Hkeys]].
    + exists fs. split; [reflexivity|]. split; [lia|exact Hwf].
    + pose proof (Z.prime_ge_2 t Hprime) as Ht.
      replace (t >? 1) with true by (symmetry; apply Z.gtb_lt; lia).
      eexists. split; [reflexivity|]. split.
      * rewrite dict_prod_incr by (apply prime_powers_exponents; exact Hwf).
        exact Hp.
      * apply prime_powers_incr; assumption.
Qed.

(** ** Closed forms of the two folds *)

Lemma geom_sum_closed (p : Z) (k : nat) :
  (p - 1) * geom_sum p k = p ^ (Z.of_nat k + 1) - 1.
Proof.
  induction k as [|k IH].
  - cbn [geom_sum Z.of_nat]. rewrite Z.add_0_l, Z.pow_1_r. ring.
  - cbn [geom_sum]. rewrite Z.mul_add_distr_l, IH.
    rewrite Nat2Z.inj_succ. unfold Z.succ.
    rewrite (Z.pow_add_r p (Z.of_nat k + 1) 1) by lia.
    rewrite Z.pow_1_r. ring.
Qed.

(** The geometric-series quotient of [_calculate_sigma] is exact. *)
Lemma geom_quotient (p e : Z) :
  2 <= p -> 0 <= e ->
  (p ^ (e + 1) - 1) / (p - 1) = geom_sum p (Z.to_nat e).
Proof.
  intros Hp He.
  pose proof (geom_sum_closed p (Z.to_nat e)) as H.
  rewrite Z2Nat.id in H by exact He.
  rewrite <- H. rewrite Z.mul_comm. apply Z.div_mul. lia.
Qed.

Lemma prime_powers_bounds (factors : dict) :
  prime_powers factors ->
  Forall (fun pe => 2 <= fst pe /\ 1 <= snd pe) factors.
Proof.
  intros [_ Hall]. eapply Forall_impl; [|exact Hall].
  intros pe [Hp He]. split; [apply Z.prime_ge_2; exact Hp|exact He].
Qed.

(** One step of the totient loop on a number that still contains [p^e]:
    the product is a multiple of [p], so nothing is truncated. *)
Lemma phi_step (c p e r : Z) :
  2 <= p -> 1 <= e ->
  (c * (p ^ e * r)) * (p - 1) / p = c * ((p - 1) * p ^ (e - 1)) * r.
Proof.
  intros Hp He.
  replace e with ((e - 1) + 1) at 1 by ring.
  rewrite Z.pow_add_r by lia. rewrite Z.pow_1_r.
  replace (c * (p ^ (e - 1) * p * r) * (p - 1))
    with (c * ((p - 1) * p ^ (e - 1)) * r * p) by ring.
  apply Z.div_mul. lia.
Qed.

Lemma phi_loop_spec (factors : dict) :
  Forall (fun pe => 2 <= fst pe /\ 1 <= snd pe) factors ->
  forall c, phi_loop (keys factors) (c * dict_prod factors)
            = Return (c * phi_prod factors).
Proof.
  induction factors as [|[p e] rest IH]; intros Hall c.
  - reflexivity.
  - inversion Hall as [|x l [Hp He] Hrest]; subst. cbn [fst snd] in Hp, He.
    cbn [keys map fst phi_loop dict_prod phi_prod]. unfold floordiv.
    replace (p =? 0) with false by (symmetry; apply Z.eqb_neq; lia).
    cbn [bind]. rewrite phi_step by assumption.
    change (map fst rest) with (keys rest). rewrite (IH Hrest).
    f_equal. ring.
Qed.

Lemma sigma_loop_spec (factors : dict) :
  Forall (fun pe => 2 <= fst pe /\ 1 <= snd pe) factors ->
  forall c, sigma_loop factors c = Return (c * sigma_prod factors).
Proof.
  induction factors as [|[p e] rest IH]; intros Hall c.
  - cbn [sigma_loop sigma_prod]. f_equal. ring.
  - inversion Hall as [|x l [Hp He] Hrest]; subst. cbn [fst snd] in Hp, He.
    cbn [sigma_loop sigma_prod]. unfold floordiv.
    replace (p - 1 =? 0) with false by (symmetry; apply Z.eqb_neq; lia).
    cbn [bind]. rewrite geom_quotient by lia.
    rewrite (IH Hrest). f_equal. ring.
Qed.

(** ** Construction *)

(** For every [m >= 1] the constructor returns, and the instance holds a
    prime-power factorisation of [m] with the two closed forms. *)
Lemma init_spec (m : Z) :
  1 <= m ->
  exists fuel factors,
    init fuel m
    = Return (mkTPEPAnalyzer m factors (phi_prod factors) (sigma_prod factors)) /\
    dict_prod factors = m /\ prime_powers factors.
Proof.
  intros Hm.
  destruct (_get_prime_factors_spec m Hm) as (fuel & fs & Hrun & Hp & Hwf).
  exists fuel, fs. split; [|split; assumption].
  unfold init. replace (m <? 1) with false by (symmetry; apply Z.ltb_ge; exact Hm).
  rewrite Hrun. cbn [bind]. unfold _calculate_phi, _calculate_sigma, items.
  pose proof (prime_powers_bounds fs Hwf) as Hb.
  pose proof (phi_loop_spec fs Hb 1) as Hphi.
  rewrite Z.mul_1_l, Hp in Hphi. rewrite Hphi. cbn [bind].
  rewrite (sigma_loop_spec fs Hb 1). cbn [bind].
  f_equal. f_equal; ring.
Qed.

(** * Number theory

    The arithmetic is done on [nat] with MathComp's [prime], [totient] and
    [divisors]; the lemmas that leave the module are about [Z] again. *)

Module NatTheory.
Import ssreflect ssrfun ssrbool eqtype ssrnat seq div prime path bigop.
Import NatDefs.
#[local] Set Implicit Arguments.
#[local] Unset Strict Implicit.
Local Close Scope Z_scope.
Local Open Scope nat_scope.

(** ** Divisor sums on [nat] *)

(** A divisor of a product of coprime numbers splits into a divisor of
    each: its part on the primes of [m], and the rest. *)
Lemma dvdn_coprime_split m k d :
  0 < m -> 0 < k -> coprime m k -> d %| m * k ->
  exists d1 d2, [/\ d1 %| m, d2 %| k & d = d1 * d2].
Proof.
move=> m0 k0 co_mk d_mk.
have d0 : 0 < d by apply: dvdn_gt0 d_mk; rewrite muln_gt0 m0.
exists d`_\pi(m), d`_\pi(m)^'; split; last by rewrite partnC.
- have := partn_dvd \pi(m) (n:=m * k) _ d_mk.
  rewrite muln_gt0 m0 k0 partnM // partn_pi //.
  by rewrite (@part_p'nat \pi(m) k) ?muln1 -?coprime_pi' //; apply.
- have := partn_dvd \pi(m)^' (n:=m * k) _ d_mk.
  rewrite muln_gt0 m0 k0 partnM //.
  rewrite (@part_p'nat \pi(m)^' m) ?pnatNK ?pnat_pi // mul1n.
  by rewrite (@part_pnat_id \pi(m)^' k) -?coprime_pi' //; apply.
Qed.

Lemma divisors_coprimeM m k :
  0 < m -> 0 < k -> coprime m k ->
  perm_eq (divisors (m * k))
          [seq d1 * d2 | d1 <- divisors m, d2 <- divisors k].
Proof.
move=> m0 k0 co_mk.
have mk0 : 0 < m * k by rewrite muln_gt0 m0.
apply: uniq_perm => [||d]; first exact: divisors_uniq.
- apply: allpairs_uniq; try exact: divisors_uniq.
  move=> [a1 b1] [a2 b2] /allpairsP[[x1 y1] /= [Hx1 Hy1 [-> ->]]].
  move=> /allpairsP[[x2 y2] /= [Hx2 Hy2 [-> ->]]] E.
  move: Hx1 Hy1 Hx2 Hy2; rewrite -!dvdn_divisors // => Hx1 Hy1 Hx2 Hy2.
  have co12 : coprime x1 y2 by apply: coprime_dvdl Hx1 (coprime_dvdr Hy2 co_mk).
  have co21 : coprime x2 y1 by apply: coprime_dvdl Hx2 (coprime_dvdr Hy1 co_mk).
  have x12 : x1 %| x2 by rewrite -(Gauss_dvdl _ co12) -E dvdn_mulr.
  have x21 : x2 %| x1 by rewrite -(Gauss_dvdl _ co21) E dvdn_mulr.
  have Ex : x1 = x2 by apply/eqP; rewrite eqn_dvd x12 x21.
  have x1_gt0 : 0 < x1 by apply: dvdn_gt0 Hx1.
  by move: E; rewrite -Ex => /eqP; rewrite eqn_pmul2l // => /eqP ->.
- rewrite -dvdn_divisors //; apply/idP/allpairsP.
    move=> /(dvdn_coprime_split m0 k0 co_mk) [d1 [d2 [H1 H2 ->]]].
    by exists (d1, d2); rewrite /= -!dvdn_divisors.
  move=> [[d1 d2] /= [H1 H2 ->]].
  by apply: dvdn_mul; rewrite dvdn_divisors.
Qed.

Lemma sigma_coprime m k :
  0 < m -> 0 < k -> coprime m k -> sigma (m * k) = sigma m * sigma k.
Proof.
move=> m0 k0 co_mk; rewrite /sigma (perm_big _ (divisors_coprimeM m0 k0 co_mk)).
by rewrite big_allpairs_dep /= big_distrlr.
Qed.

Lemma divisors_pfactor p e :
  prime p -> perm_eq (divisors (p ^ e)) [seq p ^ i | i <- iota 0 e.+1].
Proof.
move=> p_pr; have p1 := prime_gt1 p_pr.
have pe0 : 0 < p ^ e by rewrite expn_gt0 prime_gt0.
apply: uniq_perm => [||d]; first exact: divisors_uniq.
- rewrite map_inj_uniq ?iota_uniq // => i j /eqP.
  by rewrite eqn_exp2l // => /eqP.
- rewrite -dvdn_divisors //; apply/dvdn_pfactor/mapP => //.
    by move=> [i le_ie ->]; exists i; rewrite // mem_iota.
  by move=> [i]; rewrite mem_iota add0n ltnS => /andP[_ le_ie] ->; exists i.
Qed.

Lemma sigma_pfactor p e :
  prime p -> sigma (p ^ e) = \sum_(0 <= i < e.+1) p ^ i.
Proof.
move=> p_pr; rewrite /sigma (perm_big _ (divisors_pfactor e p_pr)) big_map.
by rewrite /index_iota subn0.
Qed.

(** ** Products of powers of distinct primes *)

Lemma pp_prod_gt0 l : all (fun x => prime x.1) l -> 0 < pp_prod l.
Proof.
rewrite /pp_prod; elim: l => [|[p e] l IH] /=; first by rewrite big_nil.
by move=> /andP[p_pr Hl]; rewrite big_cons muln_gt0 expn_gt0 prime_gt0 //= IH.
Qed.

Lemma coprime_pp_prod p l :
  prime p -> all (fun x => prime x.1) l -> p \notin unzip1 l ->
  coprime p (pp_prod l).
Proof.
move=> p_pr; rewrite /pp_prod; elim: l => [|[q f] l IH] /=.
  by rewrite big_nil coprimen1.
move=> /andP[q_pr Hl]; rewrite inE negb_or => /andP[npq Hp].
rewrite big_cons coprimeMr IH // andbT.
by apply: coprimeXr; rewrite prime_coprime // dvdn_prime2.
Qed.

Lemma totient_pp_prod l :
  uniq (unzip1 l) -> all (fun x => prime x.1 && (0 < x.2)) l ->
  totient (pp_prod l) = \prod_(x <- l) (x.1.-1 * x.1 ^ x.2.-1).
Proof.
rewrite /pp_prod; elim: l => [|[p e] l IH] /=; first by rewrite !big_nil.
move=> /andP[Hp Hu] /andP[/andP[p_pr e0] Hl].
have Hl' : all (fun x => prime x.1) l.
  by apply: sub_all Hl => x /andP[].
rewrite !big_cons /= totient_coprime.
  by apply: coprimeXl; apply: coprime_pp_prod.
by rewrite totient_pfactor // IH.
Qed.

Lemma sigma_pp_prod l :
  uniq (unzip1 l) -> all (fun x => prime x.1) l ->
  sigma (pp_prod l) = \prod_(x <- l) \sum_(0 <= i < x.2.+1) x.1 ^ i.
Proof.
elim: l => [|[p e] l IH] Hu Hl.
  by rewrite /pp_prod !big_nil /sigma /= big_seq1.
have /andP[Hp Hu'] : (p \notin unzip1 l) && uniq (unzip1 l) by exact: Hu.
have /andP[p_pr Hl'] : prime p && all (fun x => prime x.1) l by exact: Hl.
have pe0 : 0 < p ^ e by rewrite expn_gt0 prime_gt0.
have l0 : 0 < pp_prod l by apply: pp_prod_gt0.
have co : coprime (p ^ e) (pp_prod l).
  by apply: coprimeXl; apply: coprime_pp_prod.
rewrite /pp_prod big_cons [RHS]big_cons -/(pp_prod l) sigma_coprime //.
by rewrite sigma_pfactor // IH.
Qed.

(** ** Between [Z] and [nat] *)

Lemma expnE (a b : nat) : a ^ b = Nat.pow a b.
Proof. by elim: b => [|b IH] //=; rewrite expnS IH. Qed.

Lemma iotaE (a b : nat) : iota a b = List.seq a b.
Proof. by elim: b a => [|b IH] a //=; rewrite IH. Qed.

Lemma Z_of_nat_mul (a b : nat) : Z.of_nat (a * b) = (Z.of_nat a * Z.of_nat b)%Z.
Proof. exact: Nat2Z.inj_mul. Qed.

Lemma Z_of_nat_add (a b : nat) : Z.of_nat (a + b) = (Z.of_nat a + Z.of_nat b)%Z.
Proof. exact: Nat2Z.inj_add. Qed.

Lemma Z_of_nat_exp (a b : nat) : Z.of_nat (a ^ b) = (Z.of_nat a ^ Z.of_nat b)%Z.
Proof. by rewrite expnE Nat2Z.inj_pow. Qed.

Lemma Z_of_nat_pred (a : nat) : 0 < a -> Z.of_nat a.-1 = (Z.of_nat a - 1)%Z.
Proof. by case: a => [|a] // _; rewrite succnK; lia. Qed.

Lemma Zdivide_dvdn (a b : nat) : (Z.of_nat a | Z.of_nat b)%Z <-> a %| b.
Proof.
split.
- case=> c Hc; case: a Hc => [|a] Hc.
    have -> : b = 0 by lia.
    by [].
  have c0 : (0 <= c)%Z by nia.
  apply/dvdnP; exists (Z.to_nat c); apply: Nat2Z.inj.
  by rewrite Z_of_nat_mul Z2Nat.id.
- by move=> /dvdnP[c ->]; exists (Z.of_nat c); rewrite Z_of_nat_mul.
Qed.

Lemma Zgcd_gcdn (a b : nat) :
  Z.gcd (Z.of_nat a) (Z.of_nat b) = Z.of_nat (gcdn a b).
Proof.
apply: Z.divide_antisym_nonneg; [exact: Z.gcd_nonneg | exact: Nat2Z.is_nonneg | |].
- have g0 := Z.gcd_nonneg (Z.of_nat a) (Z.of_nat b).
  rewrite -(Z2Nat.id _ g0); apply/Zdivide_dvdn; rewrite dvdn_gcd.
  apply/andP; split; apply/Zdivide_dvdn; rewrite Z2Nat.id //.
    exact: Z.gcd_divide_l.
  exact: Z.gcd_divide_r.
- apply: Z.gcd_greatest; apply/Zdivide_dvdn; [exact: dvdn_gcdl | exact: dvdn_gcdr].
Qed.

Lemma Zprime_prime (p : Z) : Z.prime p -> prime (Z.to_nat p).
Proof.
move=> [p1 Hp]; have p0 : (0 <= p)%Z by lia.
apply/primeP; split; first by apply/ltP; lia.
move=> d /Zdivide_dvdn; rewrite (Z2Nat.id _ p0) => Hd; apply/orP.
have [->|d1] := eqVneq d 1; first by left.
right; apply/eqP; apply: Nat2Z.inj; rewrite (Z2Nat.id _ p0).
have d0 : (0 < Z.of_nat d)%Z.
  case: (d) Hd => [|d'] Hd; last by lia.
  by case: Hd => c; lia.
have dp : (Z.of_nat d <= p)%Z by apply: Z.divide_pos_le => //; lia.
have [//|dlt] : (Z.of_nat d = p \/ Z.of_nat d < p)%Z by lia.
case: (Hp (Z.of_nat d)) => //.
split=> //.
suff : d <> 1 by lia.
by apply/eqP.
Qed.

Lemma Zeqb_1_nat (g : nat) : (Z.of_nat g =? 1)%Z = (g == 1).
Proof.
case: (Z.eqb_spec (Z.of_nat g) 1) => H; case: eqP => // H'; lia.
Qed.

Lemma Zgcd_coprime (a b : nat) :
  (Z.gcd (Z.of_nat a) (Z.of_nat b) =? 1)%Z = coprime a b.
Proof. by rewrite Zgcd_gcdn Zeqb_1_nat. Qed.

Lemma Zmod_dvdn (a d : nat) :
  0 < d -> (Z.of_nat a mod Z.of_nat d =? 0)%Z = (d %| a).
Proof.
move=> /ltP d0.
have dz : Z.of_nat d <> 0%Z by lia.
case: (Z.eqb_spec (Z.of_nat a mod Z.of_nat d) 0) => H.
  by symmetry; apply/Zdivide_dvdn/Z.mod_divide.
symmetry; apply/negP => /Zdivide_dvdn /(Z.mod_divide _ _ dz).
exact: H.
Qed.

Lemma length_filter_map (P : Z -> bool) (l : seq nat) :
  List.length (List.filter P (List.map Z.of_nat l))
  = count (fun k => P (Z.of_nat k)) l.
Proof. by elim: l => [|k l IH] //=; case: (P _) => /=; rewrite IH. Qed.

Lemma sum_count (P : pred nat) (l : seq nat) :
  \sum_(d <- l) P d = count P l.
Proof. by elim: l => [|k l IH]; rewrite ?big_nil ?big_cons //= IH. Qed.

Lemma coprime_count_totient (m : nat) :
  coprime_count (Z.of_nat m) = Z.of_nat (totient m).
Proof.
rewrite /coprime_count /range1 Nat2Z.id length_filter_map -iotaE.
congr Z.of_nat.
have E : (fun k => (Z.gcd (Z.of_nat k) (Z.of_nat m) =? 1)%Z) =1 coprime m.
  by move=> k /=; rewrite Zgcd_coprime coprime_sym.
rewrite (eq_count E).
rewrite -sum_count totient_count_coprime.
have -> : iota 1 m = index_iota 1 m.+1 by rewrite /index_iota subn1.
apply: (@addnI (coprime m 0 : nat)).
rewrite -big_ltn // big_nat_recr //= addnC; congr (_ + _).
by rewrite /coprime gcdn0 gcdnn.
Qed.

Lemma fold_filter_map (P : Z -> bool) (Q : pred nat) (l : seq nat) :
  {in l, forall d, P (Z.of_nat d) = Q d} ->
  List.fold_right Z.add 0%Z (List.filter P (List.map Z.of_nat l))
  = Z.of_nat (\sum_(d <- l | Q d) d).
Proof.
elim: l => [|k l IH] H; first by rewrite big_nil.
have Hk : P (Z.of_nat k) = Q k by apply: H; rewrite mem_head.
have {}IH : List.fold_right Z.add 0%Z (List.filter P (List.map Z.of_nat l))
            = Z.of_nat (\sum_(d <- l | Q d) d).
  by apply: IH => d Hd; apply: H; rewrite inE Hd orbT.
rewrite big_cons /= Hk; case: (Q k) => //=.
by rewrite IH Z_of_nat_add.
Qed.

Lemma divisor_sum_sigma (m : nat) :
  0 < m -> divisor_sum (Z.of_nat m) = Z.of_nat (sigma m).
Proof.
move=> m0; rewrite /divisor_sum /range1 Nat2Z.id -iotaE.
have E : {in iota 1 m, forall d,
            (Z.of_nat m mod Z.of_nat d =? 0)%Z = (d %| m)}.
  by move=> d; rewrite mem_iota => /andP[d0 _]; rewrite Zmod_dvdn.
rewrite (fold_filter_map E).
congr Z.of_nat; rewrite /sigma -big_filter; apply: perm_big.
apply: uniq_perm => [||d].
- by rewrite filter_uniq // iota_uniq.
- exact: divisors_uniq.
- rewrite mem_filter mem_iota -dvdn_divisors // add1n ltnS.
  case dm: (d %| m) => //=.
  by rewrite (dvdn_gt0 m0 dm) (dvdn_leq m0 dm).
Qed.

(** ** Factor mappings as lists of prime powers on [nat] *)

Lemma nat_factors_cons p e (rest : dict) :
  nat_factors ((p, e) :: rest) = (Z.to_nat p, Z.to_nat e) :: nat_factors rest.
Proof. by []. Qed.

Lemma bounded_factors_cons p e (rest : dict) :
  bounded_factors ((p, e) :: rest) ->
  [/\ (2 <= p)%Z, (1 <= e)%Z & bounded_factors rest].
Proof. by move=> H; inversion H as [|x l [Hp He] Hrest]. Qed.

Lemma prime_factors_cons p e (rest : dict) :
  List.Forall (fun pe => Z.prime pe.1 /\ (1 <= pe.2)%Z) ((p, e) :: rest) ->
  [/\ Z.prime p, (1 <= e)%Z
    & List.Forall (fun pe => Z.prime pe.1 /\ (1 <= pe.2)%Z) rest].
Proof. by move=> H; inversion H as [|x l [Hp He] Hrest]. Qed.

Lemma mem_nat_keys (p : Z) (factors : dict) :
  (0 <= p)%Z -> bounded_factors factors ->
  Z.to_nat p \in unzip1 (nat_factors factors) -> List.In p (keys factors).
Proof.
move=> p0; elim: factors => [|[q f] rest IH] //= /bounded_factors_cons[q2 _ Hrest].
rewrite inE => /orP[/eqP E|H]; last by right; apply: IH.
by left; lia.
Qed.

Lemma nat_factors_uniq (factors : dict) :
  prime_powers factors -> uniq (unzip1 (nat_factors factors)).
Proof.
move=> wf; have Hb := prime_powers_bounds factors wf; case: wf => nd _.
elim: factors nd Hb => [|[p e] rest IH] //= nd /bounded_factors_cons[p2 _ Hrest].
have [notin nd'] : ~ List.In p (keys rest) /\ List.NoDup (keys rest).
  by inversion nd.
rewrite IH // andbT; apply/negP => /(mem_nat_keys _ Hrest) H.
by apply: notin; apply: H; lia.
Qed.

Lemma nat_factors_prime (factors : dict) :
  prime_powers factors ->
  all (fun x => prime x.1 && (0 < x.2)) (nat_factors factors).
Proof.
case=> _; elim: factors => [|[p e] rest IH] //= /prime_factors_cons[pp e1 Hrest].
rewrite Zprime_prime //= IH // andbT.
by apply/ltP; lia.
Qed.

Lemma nat_factors_prime1 (factors : dict) :
  prime_powers factors -> all (fun x => prime x.1) (nat_factors factors).
Proof.
by move=> /nat_factors_prime; apply: sub_all => x /andP[].
Qed.

Lemma dict_prod_nat (factors : dict) :
  bounded_factors factors ->
  dict_prod factors = Z.of_nat (pp_prod (nat_factors factors)).
Proof.
rewrite /pp_prod; elim: factors => [|[p e] rest IH]; first by rewrite big_nil.
move=> /bounded_factors_cons[p2 e1 Hrest].
rewrite nat_factors_cons big_cons Z_of_nat_mul Z_of_nat_exp /= -IH //.
by rewrite !Z2Nat.id //; lia.
Qed.

Lemma phi_prod_nat (factors : dict) :
  bounded_factors factors ->
  phi_prod factors
  = Z.of_nat (\prod_(x <- nat_factors factors) (x.1.-1 * x.1 ^ x.2.-1)).
Proof.
elim: factors => [|[p e] rest IH]; first by rewrite big_nil.
move=> /bounded_factors_cons[p2 e1 Hrest].
rewrite nat_factors_cons big_cons !Z_of_nat_mul Z_of_nat_exp /= -IH //.
rewrite !Z_of_nat_pred; try by apply/ltP; lia.
by rewrite !Z2Nat.id //; lia.
Qed.

Lemma geom_sum_nat (p : nat) (k : nat) :
  geom_sum (Z.of_nat p) k = Z.of_nat (\sum_(0 <= i < k.+1) p ^ i).
Proof.
elim: k => [|k IH]; first by rewrite big_nat1 expn0.
by rewrite big_nat_recr //= IH Z_of_nat_add Z_of_nat_exp.
Qed.

Lemma sigma_prod_nat (factors : dict) :
  bounded_factors factors ->
  sigma_prod factors
  = Z.of_nat (\prod_(x <- nat_factors factors) \sum_(0 <= i < x.2.+1) x.1 ^ i).
Proof.
elim: factors => [|[p e] rest IH]; first by rewrite big_nil.
move=> /bounded_factors_cons[p2 e1 Hrest].
rewrite nat_factors_cons big_cons Z_of_nat_mul -IH // -geom_sum_nat /=.
by rewrite Z2Nat.id //; lia.
Qed.

(** ** What leaves the module: statements on [Z] *)

Lemma phi_prod_coprime_count (factors : dict) :
  prime_powers factors -> phi_prod factors = coprime_count (dict_prod factors).
Proof.
move=> wf; have Hb := prime_powers_bounds factors wf.
rewrite (dict_prod_nat Hb) coprime_count_totient (phi_prod_nat Hb).
by rewrite totient_pp_prod ?nat_factors_uniq ?nat_factors_prime.
Qed.

Lemma sigma_prod_divisor_sum (factors : dict) :
  prime_powers factors -> sigma_prod factors = divisor_sum (dict_prod factors).
Proof.
move=> wf; have Hb := prime_powers_bounds factors wf.
have Hp := nat_factors_prime1 wf.
rewrite (dict_prod_nat Hb) divisor_sum_sigma ?pp_prod_gt0 // (sigma_prod_nat Hb).
by rewrite sigma_pp_prod ?nat_factors_uniq.
Qed.

Lemma Zgcd1_coprime (a b : Z) :
  (1 <= a)%Z -> (1 <= b)%Z -> Z.gcd a b = 1%Z ->
  coprime (Z.to_nat a) (Z.to_nat b).
Proof.
move=> a1 b1 H; rewrite -Zgcd_coprime !Z2Nat.id; try lia.
by rewrite H.
Qed.

Lemma coprime_count_mul (a b : Z) :
  (1 <= a)%Z -> (1 <= b)%Z -> Z.gcd a b = 1%Z ->
  coprime_count (a * b) = (coprime_count a * coprime_count b)%Z.
Proof.
move=> a1 b1 H; have co := Zgcd1_coprime a1 b1 H.
have a0 : (0 <= a)%Z by lia.
have b0 : (0 <= b)%Z by lia.
rewrite -{1 2}(Z2Nat.id _ a0) -{1 2}(Z2Nat.id _ b0) -Z_of_nat_mul.
by rewrite !coprime_count_totient totient_coprime // Z_of_nat_mul.
Qed.

Lemma divisor_sum_mul (a b : Z) :
  (1 <= a)%Z -> (1 <= b)%Z -> Z.gcd a b = 1%Z ->
  divisor_sum (a * b) = (divisor_sum a * divisor_sum b)%Z.
Proof.
move=> a1 b1 H; have co := Zgcd1_coprime a1 b1 H.
have a0 : (0 <= a)%Z by lia.
have b0 : (0 <= b)%Z by lia.
have an : 0 < Z.to_nat a by apply/ltP; lia.
have bn : 0 < Z.to_nat b by apply/ltP; lia.
rewrite -{1 2}(Z2Nat.id _ a0) -{1 2}(Z2Nat.id _ b0) -Z_of_nat_mul.
rewrite !divisor_sum_sigma ?muln_gt0 ?an ?bn //.
by rewrite sigma_coprime // Z_of_nat_mul.
Qed.

(** ** Multiplicities *)

Lemma prime_dvd_pp_prod q l :
  prime q -> all (fun x => prime x.1) l -> q %| pp_prod l -> q \in unzip1 l.
Proof.
move=> q_pr; rewrite /pp_prod; elim: l => [|[p e] l IH] /=.
  by rewrite big_nil Euclid_dvd1.
move=> /andP[p_pr Hl]; rewrite big_cons /= Euclid_dvdM // inE.
case/orP=> [|/(IH Hl) ->]; last by rewrite orbT.
by rewrite Euclid_dvdX // dvdn_prime2 // => /andP[-> _].
Qed.

Lemma logn_pp_prod l p e :
  uniq (unzip1 l) -> all (fun x => prime x.1 && (0 < x.2)) l ->
  (p, e) \in l -> logn p (pp_prod l) = e.
Proof.
elim: l => [|[q f] l IH] // Hu Hl.
have /andP[Hq Hu'] : (q \notin unzip1 l) && uniq (unzip1 l) by exact: Hu.
have /andP[/andP[q_pr f0] Hl'] :
  (prime q && (0 < f)) && all (fun x => prime x.1 && (0 < x.2)) l by exact: Hl.
have Hl1 : all (fun x => prime x.1) l by apply: sub_all Hl' => x /andP[].
have P0 : 0 < pp_prod l by apply: pp_prod_gt0.
have qf0 : 0 < q ^ f by rewrite expn_gt0 prime_gt0.
rewrite /pp_prod big_cons -/(pp_prod l) /= lognM // inE.
case/orP=> [/eqP[-> ->]|Hin].
  by rewrite pfactorK // logn_coprime ?addn0 // coprime_pp_prod.
have p_in : p \in unzip1 l by apply/mapP; exists (p, e).
have p_pr : prime p.
  by have /allP/(_ _ Hin)/andP[] := Hl'.
have npq : p != q by apply: contraNneq Hq => <-.
rewrite (IH _ _ Hin) // logn_coprime ?add0n //.
by apply: coprimeXr; rewrite prime_coprime // dvdn_prime2.
Qed.

Lemma In_nat_factors p e (factors : dict) :
  List.In (p, e) factors -> (Z.to_nat p, Z.to_nat e) \in nat_factors factors.
Proof.
elim: factors => [|[q f] rest IH] //= [[-> ->]|H]; first by rewrite mem_head.
by rewrite inE IH ?orbT.
Qed.

Lemma prime_powers_multiplicity (factors : dict) (p e : Z) :
  prime_powers factors -> List.In (p, e) factors ->
  ~ (p ^ (e + 1) | dict_prod factors)%Z.
Proof.
move=> wf Hin Hdiv; have Hb := prime_powers_bounds factors wf.
have [p2 e1] : (2 <= p /\ 1 <= e)%Z.
  by move/List.Forall_forall: Hb => /(_ _ Hin).
have Hlog := logn_pp_prod (nat_factors_uniq wf) (nat_factors_prime wf)
                          (In_nat_factors Hin).
have p_pr : prime (Z.to_nat p).
  by have /allP/(_ _ (In_nat_factors Hin))/andP[] := nat_factors_prime wf.
have P0 : 0 < pp_prod (nat_factors factors).
  exact: pp_prod_gt0 (nat_factors_prime1 wf).
have : (Z.to_nat p) ^ (Z.to_nat e).+1 %| pp_prod (nat_factors factors).
  apply/Zdivide_dvdn; rewrite -(dict_prod_nat Hb) Z_of_nat_exp.
  by rewrite Nat2Z.inj_succ !Z2Nat.id //; lia.
by rewrite pfactor_dvdn // Hlog ltnn.
Qed.

Lemma prime_powers_complete (factors : dict) (q : Z) :
  prime_powers factors -> Z.prime q -> (q | dict_prod factors)%Z ->
  List.In q (keys factors).
Proof.
move=> wf q_pr Hdiv; have Hb := prime_powers_bounds factors wf.
have q2 := Z.prime_ge_2 q q_pr.
have q0 : (0 <= q)%Z by lia.
apply: (mem_nat_keys q0 Hb).
apply: prime_dvd_pp_prod (Zprime_prime q_pr) (nat_factors_prime1 wf) _.
by apply/Zdivide_dvdn; rewrite -(dict_prod_nat Hb) Z2Nat.id.
Qed.

End NatTheory.

(** ** Bounds on the two arithmetic functions *)

Lemma range1_In (m k : Z) : In k (range1 m) <-> 1 <= k <= m.
Proof.
  unfold range1. rewrite in_map_iff. split.
  - intros (i & <- & Hi). apply in_seq in Hi. lia.
  - intros Hk. exists (Z.to_nat k). split; [lia|]. apply in_seq. lia.
Qed.

Lemma range1_length (m : Z) : Z.of_nat (List.length (range1 m)) = Z.max 0 m.
Proof. unfold range1. rewrite length_map, length_seq. lia. Qed.

Lemma coprime_count_bounds (m : Z) : 1 <= m -> 1 <= coprime_count m <= m.
Proof.
  intros Hm. unfold coprime_count. split.
  - assert (Hin : In 1 (filter (fun k => Z.gcd k m =? 1) (range1 m))).
    { apply filter_In. split; [apply range1_In; lia|].
      apply Z.eqb_eq. apply Z.gcd_1_l. }
    destruct (filter (fun k => Z.gcd k m =? 1) (range1 m)) as [|x l];
      [destruct Hin|].
    cbn [List.length]. lia.
  - pose proof (filter_length_le (fun k => Z.gcd k m =? 1) (range1 m)) as Hle.
    pose proof (range1_length m) as Hlen. lia.
Qed.

Lemma sum_ge_member (l : list Z) (x : Z) :
  Forall (fun y => 0 <= y) l -> In x l -> x <= fold_right Z.add 0 l.
Proof.
  induction l as [|y l IH]; intros Hall Hin; [destruct Hin|].
  inversion Hall as [|y' l' Hy Hl]; subst.
  assert (Hsum : 0 <= fold_right Z.add 0 l).
  { clear -Hl. induction l as [|z l IH]; cbn [fold_right]; [lia|].
    inversion Hl; subst. specialize (IH H2). lia. }
  cbn [fold_right]. destruct Hin as [->|Hin]; [lia|].
  specialize (IH Hl Hin). lia.
Qed.

Lemma divisor_sum_ge (m : Z) : 1 <= m -> m <= divisor_sum m.
Proof.
  intros Hm. unfold divisor_sum. apply sum_ge_member.
  - apply Forall_forall. intros y Hy. apply filter_In in Hy.
    destruct Hy as [Hy _]. apply range1_In in Hy. lia.
  - apply filter_In. split; [apply range1_In; lia|].
    apply Z.eqb_eq. apply Z.mod_same. lia.
Qed.

(** ** What a finished construction holds *)

Lemma constructed_unique (m : Z) (a a' : TPEPAnalyzer) :
  constructed m a -> constructed m a' -> a = a'.
Proof.
  intros [f H] [f' H'].
  assert (E : Return a = Return a').
  { eapply init_deterministic; [exact H|exact H'|discriminate|discriminate]. }
  congruence.
Qed.

Lemma constructed_pos (m : Z) (a : TPEPAnalyzer) : constructed m a -> 1 <= m.
Proof.
  intros [f H]. unfold init in H.
  destruct (Z.ltb_spec m 1) as [Hlt|Hge]; [discriminate|exact Hge].
Qed.

(** A finished construction for [m] holds a factorisation of [m] into
    powers of distinct primes, and the two closed forms over it. *)
Lemma constructed_spec (m : Z) (a : TPEPAnalyzer) :
  constructed m a ->
  n a = m /\ dict_prod (_factors a) = m /\ prime_powers (_factors a) /\
  phi_val a = phi_prod (_factors a) /\ sigma_val a = sigma_prod (_factors a).
Proof.
  intros Ha. pose proof (constructed_pos m a Ha) as Hm.
  destruct (init_spec m Hm) as (fuel & fs & Hrun & Hp & Hwf).
  assert (E : a = mkTPEPAnalyzer m fs (phi_prod fs) (sigma_prod fs)).
  { apply (constructed_unique m); [exact Ha|exists fuel; exact Hrun]. }
  subst a. cbn [n _factors phi_val sigma_val].
  split; [reflexivity|]. split; [exact Hp|]. split; [exact Hwf|].
  split; reflexivity.
Qed.

Lemma constructed_exists (m : Z) : 1 <= m -> exists a, constructed m a.
Proof.
  intros Hm. destruct (init_spec m Hm) as (fuel & fs & Hrun & _).
  eexists. exists fuel. exact Hrun.
Qed.

Lemma constructed_phi (m : Z) (a : TPEPAnalyzer) :
  constructed m a -> phi_val a = coprime_count m.
Proof.
  intros Ha. destruct (constructed_spec m a Ha) as (_ & Hp & Hwf & Hphi & _).
  rewrite Hphi, <- Hp. apply NatTheory.phi_prod_coprime_count. exact Hwf.
Qed.

Lemma constructed_sigma (m : Z) (a : TPEPAnalyzer) :
  constructed m a -> sigma_val a = divisor_sum m.
Proof.
  intros Ha. destruct (constructed_spec m a Ha) as (_ & Hp & Hwf & _ & Hsig).
  rewrite Hsig, <- Hp. apply NatTheory.sigma_prod_divisor_sum. exact Hwf.
Qed.

Lemma dict_prod_divide (factors : dict) (p e : Z) :
  In (p, e) factors -> (p ^ e | dict_prod factors).
Proof.
  induction factors as [|[q f] rest IH]; intros Hin; [destruct Hin|].
  cbn [dict_prod]. destruct Hin as [E|Hin].
  - inversion E; subst. apply Z.divide_factor_l.
  - apply Z.divide_mul_r. apply IH. exact Hin.
Qed.

(** A key of a well-formed mapping divides the product of the mapping, and
    is prime. *)
Lemma key_divides (factors : dict) (p : Z) :
  prime_powers factors -> In p (keys factors) -> (p | dict_prod factors).
Proof.
  intros [_ Hall] Hin. unfold keys in Hin. apply in_map_iff in Hin.
  destruct Hin as ([q e] & <- & Hin). cbn [fst].
  pose proof (proj1 (Forall_forall _ _) Hall (q, e) Hin) as [_ He].
  cbn [snd] in He.
  eapply Z.divide_trans; [|apply dict_prod_divide; exact Hin].
  exists (q ^ (e - 1)). replace e with ((e - 1) + 1) at 1 by ring.
  rewrite Z.pow_add_r by lia. rewrite Z.pow_1_r. reflexivity.
Qed.

Lemma key_prime (factors : dict) (p : Z) :
  prime_powers factors -> In p (keys factors) -> Z.prime p.
Proof.
  intros [_ Hall] Hin. unfold keys in Hin. apply in_map_iff in Hin.
  destruct Hin as ([q e] & <- & Hin). cbn [fst].
  exact (proj1 (proj1 (Forall_forall _ _) Hall (q, e) Hin)).
Qed.

(** * The claims *)

(** C1.  For every integer [m >= 1] the factor mapping computed at
    construction is the prime factorisation of [m]: the product of
    [p^exponent] over its entries is [m]; its keys are pairwise distinct
    primes, each at least 2; every exponent is at least 1, and is the
    multiplicity of its prime in [m]; every prime that divides [m] is a
    key; and for [m = 1] the mapping is empty. *)
Theorem C1_prime_factorization (m : Z) :
  1 <= m ->
  exists a, constructed m a /\
    dict_prod (_factors a) = m /\
    NoDup (keys (_factors a)) /\
    Forall (fun pe => Z.prime (fst pe) /\ 2 <= fst pe /\ 1 <= snd pe /\
                      (fst pe ^ snd pe | m) /\ ~ (fst pe ^ (snd pe + 1) | m))
           (_factors a) /\
    (forall q, Z.prime q -> (q | m) -> In q (keys (_factors a))) /\
    (m = 1 -> _factors a = []).
Proof.
  intros Hm. destruct (constructed_exists m Hm) as [a Ha].
  exists a. split; [exact Ha|].
  destruct (constructed_spec m a Ha) as (_ & Hp & Hwf & _ & _).
  split; [exact Hp|]. split; [apply Hwf|]. split; [|split].
  - apply Forall_forall. intros [p e] Hin. cbn [fst snd].
    destruct Hwf as [Hnd Hall].
    pose proof (proj1 (Forall_forall _ _) Hall (p, e) Hin) as [Hprime He].
    cbn [fst snd] in Hprime, He.
    split; [exact Hprime|]. split; [apply Z.prime_ge_2; exact Hprime|].
    split; [exact He|]. rewrite <- Hp. split.
    + apply dict_prod_divide. exact Hin.
    + apply NatTheory.prime_powers_multiplicity; [split; assumption|exact Hin].
  - intros q Hq Hdiv. apply NatTheory.prime_powers_complete; [exact Hwf|exact Hq|].
    rewrite Hp. exact Hdiv.
  - intros ->. apply (constructed_unique 1 a (mkTPEPAnalyzer 1 [] 1 1)) in Ha.
    + rewrite Ha. reflexivity.
    + exists 1%nat. reflexivity.
Qed.

Lemma C1_prime_factorization_witness :
  1 <= 28 /\
  exists a, constructed 28 a /\
    dict_prod (_factors a) = 28 /\
    NoDup (keys (_factors a)) /\
    Forall (fun pe => Z.prime (fst pe) /\ 2 <= fst pe /\ 1 <= snd pe /\
                      (fst pe ^ snd pe | 28) /\ ~ (fst pe ^ (snd pe + 1) | 28))
           (_factors a) /\
    (forall q, Z.prime q -> (q | 28) -> In q (keys (_factors a))) /\
    (28 = 1 -> _factors a = []).
Proof.
  split; [lia|]. apply (C1_prime_factorization 28). lia.
Defined.

(** C2.  For every integer [m >= 1] the value [phi_val] computed at
    construction is Euler's totient of [m], the count of integers in
    [[1, m]] coprime to [m]; it satisfies [1 <= phi_val <= m], and it is 1
    for [m = 1]. *)
Theorem C2_phi_is_totient (m : Z) :
  1 <= m ->
  exists a, constructed m a /\
    phi_val a = coprime_count m /\
    1 <= phi_val a <= m /\
    (m = 1 -> phi_val a = 1).
Proof.
  intros Hm. destruct (constructed_exists m Hm) as [a Ha].
  exists a. split; [exact Ha|].
  pose proof (constructed_phi m a Ha) as Hphi.
  split; [exact Hphi|]. rewrite Hphi. split.
  - apply coprime_count_bounds. exact Hm.
  - intros ->. reflexivity.
Qed.

Lemma C2_phi_is_totient_witness :
  1 <= 945 /\
  exists a, constructed 945 a /\
    phi_val a = coprime_count 945 /\
    1 <= phi_val a <= 945 /\
    (945 = 1 -> phi_val a = 1).
Proof.
  split; [lia|]. apply (C2_phi_is_totient 945). lia.
Defined.

(** C3.  For every integer [m >= 1] the value [sigma_val] computed at
    construction is the sum of all positive divisors of [m], [m] itself
    included; it satisfies [sigma_val >= m], and it is 1 for [m = 1]. *)
Theorem C3_sigma_is_divisor_sum (m : Z) :
  1 <= m ->
  exists a, constructed m a /\
    sigma_val a = divisor_sum m /\
    m <= sigma_val a /\
    (m = 1 -> sigma_val a = 1).
Proof.
  intros Hm. destruct (constructed_exists m Hm) as [a Ha].
  exists a. split; [exact Ha|].
  pose proof (constructed_sigma m a Ha) as Hsig.
  split; [exact Hsig|]. rewrite Hsig. split.
  - apply divisor_sum_ge. exact Hm.
  - intros ->. reflexivity.
Qed.

Lemma C3_sigma_is_divisor_sum_witness :
  1 <= 945 /\
  exists a, constructed 945 a /\
    sigma_val a = divisor_sum 945 /\
    945 <= sigma_val a /\
    (945 = 1 -> sigma_val a = 1).
Proof.
  split; [lia|]. apply (C3_sigma_is_divisor_sum 945). lia.
Defined.

(** C7.  For coprime integers [x >= 1] and [y >= 1] the computed values
    are multiplicative: [phi(x*y) = phi(x) * phi(y)] and
    [sigma(x*y) = sigma(x) * sigma(y)]. *)
Theorem C7_multiplicative (x y : Z) :
  1 <= x -> 1 <= y -> Z.gcd x y = 1 ->
  exists ax ay axy,
    constructed x ax /\ constructed y ay /\ constructed (x * y) axy /\
    phi_val axy = phi_val ax * phi_val ay /\
    sigma_val axy = sigma_val ax * sigma_val ay.
Proof.
  intros Hx Hy Hgcd.
  destruct (constructed_exists x Hx) as [ax Hax].
  destruct (constructed_exists y Hy) as [ay Hay].
  assert (Hxy : 1 <= x * y) by nia.
  destruct (constructed_exists (x * y) Hxy) as [axy Haxy].
  exists ax, ay, axy. repeat (split; [assumption|]).
  rewrite (constructed_phi _ _ Hax), (constructed_phi _ _ Hay),
    (constructed_phi _ _ Haxy), (constructed_sigma _ _ Hax),
    (constructed_sigma _ _ Hay), (constructed_sigma _ _ Haxy).
  split.
  - apply NatTheory.coprime_count_mul; assumption.
  - apply NatTheory.divisor_sum_mul; assumption.
Qed.

Lemma C7_multiplicative_witness :
  1 <= 4 /\ 1 <= 7 /\ Z.gcd 4 7 = 1 /\
  exists ax ay axy,
    constructed 4 ax /\ constructed 7 ay /\ constructed (4 * 7) axy /\
    phi_val axy = phi_val ax * phi_val ay /\
    sigma_val axy = sigma_val ax * sigma_val ay.
Proof.
  split; [lia|]. split; [lia|]. split; [reflexivity|].
  apply (C7_multiplicative 4 7); [lia|lia|reflexivity].
Defined.

(** ** Termination of the two loops from any state *)

Lemma inner_step_decreases (d temp : Z) :
  2 <= d -> 1 <= temp -> temp mod d = 0 -> 1 <= temp / d < temp.
Proof.
  intros Hd Ht Hmod.
  assert (Hq : temp = d * (temp / d)) by (apply Z_div_exact_full_2; [lia|exact Hmod]).
  split; [nia|]. apply Z.div_lt; lia.
Qed.

Lemma inner_loop_le (fuel : nat) :
  forall (factors : dict) (d temp : Z) (factors' : dict) (temp' : Z),
    2 <= d -> 1 <= temp ->
    inner_loop fuel factors d temp = Return (factors', temp') ->
    1 <= temp' <= temp.
Proof.
  induction fuel as [|fuel IH]; intros fs d temp fs' temp' Hd Ht Hrun;
    [discriminate|].
  cbn [inner_loop] in Hrun. unfold pymod, floordiv in Hrun.
  replace (d =? 0) with false in Hrun by (symmetry; apply Z.eqb_neq; lia).
  cbn [bind] in Hrun.
  destruct (Z.eqb_spec (temp mod d) 0) as [Hmod|Hmod].
  - pose proof (inner_step_decreases d temp Hd Ht Hmod) as Hdec.
    apply IH in Hrun; lia.
  - inversion Hrun; subst. lia.
Qed.

Lemma inner_loop_terminates (bound : nat) :
  forall (factors : dict) (d temp : Z),
    (Z.to_nat temp <= bound)%nat -> 2 <= d -> 1 <= temp ->
    exists fuel r, inner_loop fuel factors d temp = Return r.
Proof.
  induction bound as [|bound IH]; intros fs d temp Hb Hd Ht; [lia|].
  destruct (Z.eq_dec (temp mod d) 0) as [Hmod|Hmod].
  - pose proof (inner_step_decreases d temp Hd Ht Hmod) as Hdec.
    destruct (IH (dict_set fs d (dict_get fs d 0 + 1)) d (temp / d))
      as (fuel & r & Hrun); [lia|exact Hd|lia|].
    exists (S fuel), r. cbn [inner_loop]. unfold pymod, floordiv.
    replace (d =? 0) with false by (symmetry; apply Z.eqb_neq; lia).
    cbn [bind]. rewrite Hmod. cbn [Z.eqb]. exact Hrun.
  - exists 1%nat, (fs, temp). cbn [inner_loop]. unfold pymod.
    replace (d =? 0) with false by (symmetry; apply Z.eqb_neq; lia).
    cbn [bind].
    replace (temp mod d =? 0) with false by (symmetry; apply Z.eqb_neq; exact Hmod).
    reflexivity.
Qed.

Lemma outer_loop_terminates (bound : nat) :
  forall (factors : dict) (d temp : Z),
    (Z.to_nat (temp + 1 - d) <= bound)%nat -> 2 <= d ->
    exists fuel r, outer_loop fuel factors d temp = Return r.
Proof.
  induction bound as [|bound IH]; intros fs d temp Hb Hd.
  - exists 1%nat, (fs, temp). cbn [outer_loop].
    replace (d * d <=? temp) with false by (symmetry; apply Z.leb_gt; nia).
    reflexivity.
  - destruct (Z_le_gt_dec (d * d) temp) as [Hguard|Hguard].
    + assert (Ht : 1 <= temp) by nia.
      destruct (inner_loop_terminates (Z.to_nat temp) fs d temp (le_n _) Hd Ht)
        as (f1 & [fs1 t1] & Hrun1).
      pose proof (inner_loop_le f1 fs d temp fs1 t1 Hd Ht Hrun1) as Hle.
      destruct (IH fs1 (d + 1) t1) as (f2 & r & Hrun2); [nia|lia|].
      exists (S (Nat.max f1 f2)), r. cbn [outer_loop].
      replace (d * d <=? temp) with true by (symmetry; apply Z.leb_le; exact Hguard).
      rewrite (inner_loop_mono f1 (Nat.max f1 f2) fs d temp (Return (fs1, t1)));
        [|exact Hrun1|discriminate|apply Nat.le_max_l].
      cbn [bind].
      apply (outer_loop_mono f2); [exact Hrun2|discriminate|apply Nat.le_max_r].
    + exists 1%nat, (fs, temp). cbn [outer_loop].
      replace (d * d <=? temp) with false by (symmetry; apply Z.leb_gt; lia).
      reflexivity.
Qed.

(** The runs of the three steps of a construction, at one fuel. *)
Lemma init_steps (m : Z) :
  1 <= m ->
  exists fuel a,
    init fuel m = Return a /\ n a = m /\
    _get_prime_factors fuel m = Return (_factors a) /\
    _calculate_phi m (_factors a) = Return (phi_val a) /\
    _calculate_sigma (_factors a) = Return (sigma_val a).
Proof.
  intros Hm.
  destruct (_get_prime_factors_spec m Hm) as (fuel & fs & Hrun & Hp & Hwf).
  pose proof (prime_powers_bounds fs Hwf) as Hb.
  pose proof (phi_loop_spec fs Hb 1) as Hphi.
  rewrite Z.mul_1_l, Hp in Hphi.
  pose proof (sigma_loop_spec fs Hb 1) as Hsig.
  exists fuel, (mkTPEPAnalyzer m fs (1 * phi_prod fs) (1 * sigma_prod fs)).
  cbn [n _factors phi_val sigma_val].
  split; [|split; [reflexivity|split; [exact Hrun|split; [exact Hphi|exact Hsig]]]].
  unfold init. replace (m <? 1) with false by (symmetry; apply Z.ltb_ge; exact Hm).
  rewrite Hrun. cbn [bind]. unfold _calculate_phi. rewrite Hphi. cbn [bind].
  unfold _calculate_sigma, items. rewrite Hsig.
  reflexivity.
Qed.

(** C5.  Construction fails with [ValueError], carrying its message,
    exactly when [m < 1] (so for 0 and for every negative integer), and
    then no instance is returned; for every [m >= 1] it returns an
    instance whose factors, phi and sigma are the results of the three
    computations. *)
Theorem C5_construction (m : Z) :
  (m < 1 ->
   forall fuel,
     init fuel m = Raise (ValueError "TPEP only applies to positive integers.")) /\
  (forall fuel e,
     init fuel m = Raise e ->
     m < 1 /\ e = ValueError "TPEP only applies to positive integers.") /\
  (1 <= m ->
   exists fuel a,
     init fuel m = Return a /\ n a = m /\
     _get_prime_factors fuel m = Return (_factors a) /\
     _calculate_phi m (_factors a) = Return (phi_val a) /\
     _calculate_sigma (_factors a) = Return (sigma_val a)).
Proof.
  split; [|split].
  - intros Hm fuel. unfold init.
    replace (m <? 1) with true by (symmetry; apply Z.ltb_lt; exact Hm).
    reflexivity.
  - intros fuel e Hrun. destruct (Z_lt_ge_dec m 1) as [Hlt|Hge].
    + split; [exact Hlt|]. unfold init in Hrun.
      replace (m <? 1) with true in Hrun by (symmetry; apply Z.ltb_lt; exact Hlt).
      congruence.
    + exfalso. destruct (init_steps m) as (fuel' & a & Hrun' & _); [lia|].
      assert (E : Raise e = Return a).
      { eapply init_deterministic; [exact Hrun|exact Hrun'|discriminate|discriminate]. }
      discriminate.
  - apply init_steps.
Qed.

(** C10.  The factorisation terminates for every [m >= 1]: a step of the
    inner loop strictly decreases [temp], which stays at least 1; the
    inner loop stops and never increases [temp]; the outer loop, whose [d]
    grows by one per iteration, stops; hence [_get_prime_factors] and the
    whole construction return. *)
Theorem C10_termination :
  (forall d temp, 2 <= d -> 1 <= temp -> temp mod d = 0 ->
     1 <= temp / d < temp) /\
  (forall fuel factors d temp factors' temp',
     2 <= d -> 1 <= temp ->
     inner_loop fuel factors d temp = Return (factors', temp') ->
     1 <= temp' <= temp) /\
  (forall factors d temp, 2 <= d -> 1 <= temp ->
     exists fuel r, inner_loop fuel factors d temp = Return r) /\
  (forall factors d temp, 2 <= d ->
     exists fuel r, outer_loop fuel factors d temp = Return r) /\
  (forall m, 1 <= m ->
     exists fuel factors a,
       _get_prime_factors fuel m = Return factors /\ init fuel m = Return a).
Proof.
  split; [exact inner_step_decreases|].
  split; [exact inner_loop_le|].
  split; [intros fs d temp; apply (inner_loop_terminates (Z.to_nat temp)); lia|].
  split; [intros fs d temp; apply (outer_loop_terminates (Z.to_nat (temp + 1 - d))); lia|].
  intros m Hm. destruct (init_steps m Hm) as (fuel & a & Hrun & _ & Hf & _).
  exists fuel, (_factors a), a. split; assumption.
Qed.

(** ** The totient loop divides exactly *)

Lemma phi_prod_ratio (factors : dict) :
  Forall (fun pe => 2 <= fst pe /\ 1 <= snd pe) factors ->
  (inject_Z (phi_prod factors)
   == inject_Z (dict_prod factors) * totient_ratio (keys factors))%Q.
Proof.
  induction factors as [|[p e] rest IH]; intros Hall.
  - cbn. reflexivity.
  - inversion Hall as [|x l [Hp He] Hrest]; subst. cbn [fst snd] in Hp, He.
    cbn [phi_prod dict_prod keys map fst totient_ratio].
    replace (p ^ e) with (p * p ^ (e - 1)).
    2:{ replace e with (1 + (e - 1)) at 2 by ring.
        rewrite Z.pow_add_r by lia. rewrite Z.pow_1_r. reflexivity. }
    rewrite !inject_Z_mult. change (map fst rest) with (keys rest).
    rewrite (IH Hrest). rewrite Qmake_Qdiv. rewrite Z2Pos.id by lia.
    field. intros E. unfold Qeq in E. cbn in E. lia.
Qed.

(** When the loop reaches the key [p], [result] still contains the whole
    power of [p] that the number being analysed contains. *)
Lemma phi_loop_prefix (fs1 fs2 : dict) (p e : Z) :
  Forall (fun pe => 2 <= fst pe /\ 1 <= snd pe) (fs1 ++ (p, e) :: fs2) ->
  exists r,
    phi_loop (keys fs1) (dict_prod (fs1 ++ (p, e) :: fs2)) = Return r /\
    2 <= p /\ (p | r) /\ (r * (p - 1)) mod p = 0.
Proof.
  intros Hall. apply Forall_app in Hall. destruct Hall as [H1 H2].
  inversion H2 as [|x l [Hp He] Hrest]; subst. cbn [fst snd] in Hp, He.
  exists (dict_prod ((p, e) :: fs2) * phi_prod fs1).
  assert (Hdiv : (p | dict_prod ((p, e) :: fs2) * phi_prod fs1)).
  { apply Z.divide_mul_l. cbn [dict_prod]. apply Z.divide_mul_l.
    exists (p ^ (e - 1)). replace e with ((e - 1) + 1) at 1 by ring.
    rewrite Z.pow_add_r by lia. rewrite Z.pow_1_r. reflexivity. }
  split; [|split; [exact Hp|split; [exact Hdiv|]]].
  - rewrite dict_prod_app, Z.mul_comm. apply phi_loop_spec. exact H1.
  - apply Z.mod_divide; [lia|]. apply Z.divide_mul_l. exact Hdiv.
Qed.

(** C9.  In the totient computation for [m >= 1], each time the loop
    reaches a key [p] with the current [result] (the outcome of the loop
    over the keys before [p]), [p] divides [result], so
    [result * (p - 1)] is a multiple of [p] and [// p] truncates nothing;
    the value computed is the rational [m * prod ((p - 1) / p)] over the
    keys, and the keys are the distinct primes of [m]: no key occurs
    twice, and an integer is a key exactly when it is a prime that divides
    [m]. *)
Theorem C9_phi_division_exact (m : Z) :
  1 <= m ->
  exists a, constructed m a /\
    _calculate_phi m (_factors a) = Return (phi_val a) /\
    (forall ps1 p ps2,
       keys (_factors a) = ps1 ++ p :: ps2 ->
       exists result,
         phi_loop ps1 m = Return result /\
         2 <= p /\ (p | result) /\ (result * (p - 1)) mod p = 0) /\
    (inject_Z (phi_val a)
     == inject_Z m * totient_ratio (keys (_factors a)))%Q /\
    NoDup (keys (_factors a)) /\
    (forall q, In q (keys (_factors a)) <-> Z.prime q /\ (q | m)).
Proof.
  intros Hm. destruct (constructed_exists m Hm) as [a Ha].
  exists a. split; [exact Ha|].
  destruct (constructed_spec m a Ha) as (_ & Hp & Hwf & Hphi & _).
  pose proof (prime_powers_bounds _ Hwf) as Hb.
  split; [|split; [|split; [|split]]].
  4:{ exact (proj1 Hwf). }
  4:{ intros q. split.
      - intros Hin. split; [exact (key_prime _ q Hwf Hin)|].
        rewrite <- Hp. exact (key_divides _ q Hwf Hin).
      - intros [Hq Hdiv]. rewrite <- Hp in Hdiv.
        apply NatTheory.prime_powers_complete; assumption. }
  - unfold _calculate_phi. rewrite Hphi.
    pose proof (phi_loop_spec _ Hb 1) as H.
    rewrite !Z.mul_1_l, Hp in H. exact H.
  - intros ps1 p ps2 Hkeys. unfold keys in Hkeys.
    apply map_eq_app in Hkeys. destruct Hkeys as (fs1 & fs2' & Hfs & Hk1 & Hk2).
    apply map_eq_cons in Hk2. destruct Hk2 as ([p' e] & fs2 & -> & Hp' & _).
    cbn [fst] in Hp'. subst p'.
    rewrite Hfs in Hb. destruct (phi_loop_prefix fs1 fs2 p e Hb) as (r & Hrun & Hr).
    exists r. split; [|exact Hr].
    rewrite <- Hk1, <- Hp, Hfs. exact Hrun.
  - rewrite Hphi, <- Hp. apply phi_prod_ratio. exact Hb.
Qed.

Lemma C9_phi_division_exact_witness :
  1 <= 28 /\
  exists a, constructed 28 a /\
    _calculate_phi 28 (_factors a) = Return (phi_val a) /\
    (forall ps1 p ps2,
       keys (_factors a) = ps1 ++ p :: ps2 ->
       exists result,
         phi_loop ps1 28 = Return result /\
         2 <= p /\ (p | result) /\ (result * (p - 1)) mod p = 0) /\
    (inject_Z (phi_val a)
     == inject_Z 28 * totient_ratio (keys (_factors a)))%Q /\
    NoDup (keys (_factors a)) /\
    (forall q, In q (keys (_factors a)) <-> Z.prime q /\ (q | 28)).
Proof.
  split; [lia|]. apply (C9_phi_division_exact 28). lia.
Defined.

(** ** The metrics on a constructed instance *)

(** C6.  [tpep_ratio] raises [ZeroDivisionError] when [phi_val] is 0;
    after a successful construction [phi_val >= 1] (and [n >= 1]), so
    that path is not taken and each of the four metrics returns a
    float. *)
Theorem C6_metrics_total :
  (forall self,
     phi_val self = 0 ->
     tpep_ratio self = Raise (ZeroDivisionError "division by zero")) /\
  (forall m a,
     constructed m a ->
     1 <= phi_val a /\ 1 <= n a /\
     totient_density a
       = Return (SFdiv prec emax (Z2SF (phi_val a)) (Z2SF (n a))) /\
     perfection_ratio a
       = Return (SFdiv prec emax (Z2SF (sigma_val a)) (Z2SF (n a))) /\
     tpep_ratio a
       = Return (SFdiv prec emax (Z2SF (sigma_val a)) (Z2SF (phi_val a))) /\
     exists x, mirror_gap a = Return x).
Proof.
  split.
  - intros self H0. unfold tpep_ratio, true_divide. rewrite H0. reflexivity.
  - intros m a Ha.
    pose proof (constructed_pos m a Ha) as Hm.
    pose proof (constructed_phi m a Ha) as Hphi.
    pose proof (coprime_count_bounds m Hm) as Hb.
    destruct (constructed_spec m a Ha) as (Hn & _).
    assert (Hphi1 : 1 <= phi_val a) by lia.
    assert (Hn1 : 1 <= n a) by lia.
    assert (En : (n a =? 0) = false) by (apply Z.eqb_neq; lia).
    assert (Ep : (phi_val a =? 0) = false) by (apply Z.eqb_neq; lia).
    split; [exact Hphi1|]. split; [exact Hn1|].
    unfold mirror_gap, totient_density, perfection_ratio, tpep_ratio, true_divide.
    rewrite En, Ep. cbn [bind].
    split; [reflexivity|]. split; [reflexivity|]. split; [reflexivity|].
    eexists. reflexivity.
Qed.

(** ** The scenario [n = 8128] *)

(** C4, as stated, fails: for [n = 8128] the ratio [sigma / phi] is
    [16256 / 4032], which is neither 4.0 nor within relative tolerance
    [1e-9] of it, and [report] labels the number IMPERFECT (Unstable). *)
Lemma C4_counterexample :
  exists a r,
    init 20 8128 = Return a /\
    phi_val a = 4032 /\ sigma_val a = 16256 /\
    tpep_ratio a = Return r /\
    SFeqb r (float_of_Z 4) = false /\
    SFltb (float_of_Z 4) r = true /\
    isclose r (float_of_Z 4) float_1e_9 = false /\
    report_status a = Return "IMPERFECT (Unstable)"%string.
Proof.
  eexists. eexists.
  split; [vm_compute; reflexivity|].
  repeat (split; [vm_compute; reflexivity|]).
  vm_compute. reflexivity.
Qed.

(** C4, amended.  For [n = 8128] the analyzer produces [phi = 4032],
    [sigma = 16256], [perfection_ratio] exactly 2.0 and [tpep_ratio] the
    double nearest to [16256 / 4032] (about 4.0317, which is
    [4539342481555976 * 2^-50]); that is not within the tolerance of 4.0,
    and [report] labels the number IMPERFECT (Unstable), with parity
    EVEN. *)
Theorem C4_analysis_8128 :
  exists a,
    constructed 8128 a /\
    _factors a = [(2, 6); (127, 1)] /\
    phi_val a = 4032 /\ sigma_val a = 16256 /\
    perfection_ratio a = Return (float_of_Z 2) /\
    tpep_ratio a = Return (S754_finite false 4539342481555976 (-50)) /\
    isclose (S754_finite false 4539342481555976 (-50)) (float_of_Z 4) float_1e_9
      = false /\
    report_status a = Return "IMPERFECT (Unstable)"%string /\
    report_parity a = Return "EVEN"%string.
Proof.
  exists (mkTPEPAnalyzer 8128 [(2, 6); (127, 1)] 4032 16256).
  split; [exists 20%nat; vm_compute; reflexivity|].
  repeat (split; [vm_compute; reflexivity|]).
  vm_compute. reflexivity.
Qed.

(** ** A number that is not perfect and has abundancy index 2.0 *)

(** C8 at a failing input.  For [n = 2^28 * (2^29 - 3)] the divisor sum
    is [2 * n + 2], so [n] is not perfect, and [sigma / n] rounds to the
    double 2.0: [perfection_ratio] is exactly 2.0. *)
Theorem C8_perfection_ratio_rounds :
  exists a,
    init (Z.to_nat 24000) near_perfect = Return a /\
    _factors a = [(2, 28); (536870909, 1)] /\
    sigma_val a = 2 * n a + 2 /\
    (sigma_val a =? 2 * n a) = false /\
    perfection_ratio a = Return (float_of_Z 2).
Proof.
  eexists.
  split; [vm_compute; reflexivity|].
  repeat (split; [vm_compute; reflexivity|]).
  vm_compute. reflexivity.
Qed.

(** * Further properties of the code *)

(** ** Strict bounds *)

Lemma range1_succ (m : Z) : 1 <= m -> range1 m = range1 (m - 1) ++ [m].
Proof.
  intros Hm. unfold range1.
  replace (Z.to_nat m) with (S (Z.to_nat (m - 1))) by lia.
  rewrite seq_S, map_app. cbn [map]. f_equal. f_equal. lia.
Qed.

Lemma sum_app (l1 l2 : list Z) :
  fold_right Z.add 0 (l1 ++ l2) = fold_right Z.add 0 l1 + fold_right Z.add 0 l2.
Proof. induction l1 as [|x l1 IH]; cbn [fold_right app]; lia. Qed.

Lemma coprime_count_lt (m : Z) : 2 <= m -> coprime_count m < m.
Proof.
  intros Hm. unfold coprime_count. rewrite range1_succ by lia.
  rewrite filter_app. cbn [filter].
  replace (Z.gcd m m =? 1) with false.
  2:{ symmetry. apply Z.eqb_neq. rewrite Z.gcd_diag. lia. }
  rewrite app_nil_r.
  pose proof (filter_length_le (fun k => Z.gcd k m =? 1) (range1 (m - 1))) as Hle.
  pose proof (range1_length (m - 1)) as Hlen. lia.
Qed.

Lemma divisor_sum_gt (m : Z) : 2 <= m -> m < divisor_sum m.
Proof.
  intros Hm. unfold divisor_sum. rewrite range1_succ by lia.
  rewrite filter_app, sum_app. cbn [filter].
  replace (m mod m =? 0) with true by (symmetry; apply Z.eqb_eq; apply Z.mod_same; lia).
  cbn [fold_right].
  assert (H1 : 1 <= fold_right Z.add 0 (filter (fun d => m mod d =? 0) (range1 (m - 1)))).
  { apply sum_ge_member.
    - apply Forall_forall. intros y Hy. apply filter_In in Hy.
      destruct Hy as [Hy _]. apply range1_In in Hy. lia.
    - apply filter_In. split; [apply range1_In; lia|].
      apply Z.eqb_eq. apply Z.mod_1_r. }
  lia.
Qed.

(** X1.  For every integer [m >= 2] construction succeeds and the two
    cached values lie strictly on either side of [n]:
    [1 <= phi_val < n < sigma_val]. *)
Theorem X1_strict_bounds (m : Z) :
  2 <= m ->
  exists a, constructed m a /\ 1 <= phi_val a < n a /\ n a < sigma_val a.
Proof.
  intros Hm. destruct (constructed_exists m) as [a Ha]; [lia|].
  exists a. split; [exact Ha|].
  destruct (constructed_spec m a Ha) as (Hn & _).
  rewrite (constructed_phi m a Ha), (constructed_sigma m a Ha), Hn.
  pose proof (coprime_count_bounds m). pose proof (coprime_count_lt m Hm).
  pose proof (divisor_sum_gt m Hm). lia.
Qed.

Lemma X1_strict_bounds_witness :
  2 <= 12 /\
  exists a, constructed 12 a /\ 1 <= phi_val a < n a /\ n a < sigma_val a.
Proof.
  split; [lia|]. apply (X1_strict_bounds 12). lia.
Defined.

(** ** Prime powers *)

Lemma prime_powers_single (p k : Z) :
  Z.prime p -> 1 <= k -> prime_powers [(p, k)].
Proof.
  intros Hp Hk. split.
  - cbn. constructor; [intros []|constructor].
  - constructor; [cbn; split; assumption|constructor].
Qed.

Lemma coprime_count_prime_power (p k : Z) :
  Z.prime p -> 1 <= k -> coprime_count (p ^ k) = (p - 1) * p ^ (k - 1).
Proof.
  intros Hp Hk.
  pose proof (NatTheory.phi_prod_coprime_count (prime_powers_single p k Hp Hk)) as H.
  cbn [phi_prod dict_prod] in H. rewrite !Z.mul_1_r in H. symmetry. exact H.
Qed.

Lemma divisor_sum_prime_power (p k : Z) :
  Z.prime p -> 1 <= k -> divisor_sum (p ^ k) = geom_sum p (Z.to_nat k).
Proof.
  intros Hp Hk.
  pose proof (NatTheory.sigma_prod_divisor_sum (prime_powers_single p k Hp Hk)) as H.
  cbn [sigma_prod dict_prod] in H. rewrite !Z.mul_1_r in H. symmetry. exact H.
Qed.

Lemma prime_divides_prime_power (p q k : Z) :
  Z.prime p -> Z.prime q -> 0 <= k -> (q | p ^ k) -> q = p.
Proof.
  intros Hp Hq Hk Hdiv.
  apply (Z.divide_prime_pp q p k); assumption.
Qed.

(** A mapping with distinct keys that are all [p] has at most one entry. *)
Lemma one_key (factors : dict) (p : Z) :
  NoDup (keys factors) -> (forall x, In x (keys factors) -> x = p) ->
  factors = [] \/ exists e, factors = [(p, e)].
Proof.
  intros Hnd Hall. destruct factors as [|[q e] rest]; [left; reflexivity|right].
  assert (Hq : q = p) by (apply Hall; left; reflexivity). subst q.
  destruct rest as [|[q' e'] rest']; [exists e; reflexivity|exfalso].
  assert (Hq' : q' = p) by (apply Hall; right; left; reflexivity). subst q'.
  cbn in Hnd. inversion Hnd as [|x l Hnotin _]; subst. apply Hnotin. left. reflexivity.
Qed.

Lemma prime_power_factors (p k : Z) (factors : dict) :
  Z.prime p -> 1 <= k -> prime_powers factors -> dict_prod factors = p ^ k ->
  factors = [(p, k)].
Proof.
  intros Hp Hk Hwf Hprod. pose proof (Z.prime_ge_2 p Hp) as Hp2.
  destruct (one_key factors p) as [->|[e ->]].
  - apply Hwf.
  - intros x Hx. unfold keys in Hx. apply in_map_iff in Hx.
    destruct Hx as ([q e] & <- & Hin). cbn [fst].
    destruct Hwf as [_ Hall].
    pose proof (proj1 (Forall_forall _ _) Hall (q, e) Hin) as [Hq He].
    cbn [fst snd] in Hq, He.
    apply (prime_divides_prime_power p q k Hp Hq); [lia|].
    rewrite <- Hprod. eapply Z.divide_trans; [|apply dict_prod_divide; exact Hin].
    exists (q ^ (e - 1)). replace e with ((e - 1) + 1) at 1 by ring.
    rewrite Z.pow_add_r by lia. rewrite Z.pow_1_r. reflexivity.
  - exfalso. cbn [dict_prod] in Hprod.
    assert (1 < p ^ k) by (apply Z.pow_gt_1; lia). lia.
  - f_equal. f_equal. cbn [dict_prod] in Hprod. rewrite Z.mul_1_r in Hprod.
    destruct Hwf as [_ Hall]. inversion Hall as [|x l [_ He] _]; subst.
    cbn [snd] in He.
    apply (Z.pow_inj_r p); [lia|lia|lia|exact Hprod].
Qed.

(** X2.  On a prime power [p ^ k] with [k >= 1] construction succeeds, the
    factor mapping is the single entry [{p: k}], [phi_val] is
    [p ^ k - p ^ (k - 1)] and [sigma_val] is [1 + p + ... + p ^ k], that is
    [(p ^ (k + 1) - 1) / (p - 1)]. *)
Theorem X2_prime_power (p k : Z) :
  Z.prime p -> 1 <= k ->
  exists a, constructed (p ^ k) a /\
    _factors a = [(p, k)] /\
    phi_val a = p ^ k - p ^ (k - 1) /\
    sigma_val a = geom_sum p (Z.to_nat k) /\
    (p - 1) * sigma_val a = p ^ (k + 1) - 1.
Proof.
  intros Hp Hk. pose proof (Z.prime_ge_2 p Hp) as Hp2.
  assert (Hpk : 1 <= p ^ k) by (apply Z.lt_le_incl; apply Z.pow_gt_1; lia).
  destruct (constructed_exists (p ^ k) Hpk) as [a Ha].
  exists a. split; [exact Ha|].
  destruct (constructed_spec _ a Ha) as (_ & Hprod & Hwf & _ & _).
  pose proof (constructed_sigma _ a Ha) as Hsig.
  rewrite (divisor_sum_prime_power p k Hp Hk) in Hsig.
  split; [apply prime_power_factors; assumption|]. split; [|split].
  - rewrite (constructed_phi _ a Ha), (coprime_count_prime_power p k Hp Hk).
    replace k with ((k - 1) + 1) at 2 by ring.
    rewrite Z.pow_add_r by lia. rewrite Z.pow_1_r. ring.
  - exact Hsig.
  - rewrite Hsig, geom_sum_closed. rewrite Z2Nat.id by lia. reflexivity.
Qed.

Lemma X2_prime_power_witness :
  Z.prime 3 /\ 1 <= 4 /\
  exists a, constructed (3 ^ 4) a /\
    _factors a = [(3, 4)] /\
    phi_val a = 3 ^ 4 - 3 ^ (4 - 1) /\
    sigma_val a = geom_sum 3 (Z.to_nat 4) /\
    (3 - 1) * sigma_val a = 3 ^ (4 + 1) - 1.
Proof.
  split; [exact Z.prime_3|]. split; [lia|].
  apply (X2_prime_power 3 4); [exact Z.prime_3|lia].
Defined.

(** ** Even perfect numbers of Euclid's form *)

Lemma prime_two : Z.prime 2.
Proof. split; [lia|]. intros x Hx. lia. Qed.





(** ** The parity label *)

(** X4.  The parity label of [report] agrees with the factor mapping: for
    every [m >= 1] the label is [EVEN] and 2 is a key of [_factors], or the
    label is [ODD] and 2 is not a key; computing the label never fails. *)
Theorem X4_parity_label (m : Z) :
  1 <= m ->
  exists a, constructed m a /\
    (report_parity a = Return "EVEN"%string /\ In 2 (keys (_factors a)) \/
     report_parity a = Return "ODD"%string /\ ~ In 2 (keys (_factors a))).
Proof.
  intros Hm. destruct (constructed_exists m Hm) as [a Ha].
  exists a. split; [exact Ha|].
  destruct (constructed_spec m a Ha) as (Hn & Hprod & Hwf & _ & _).
  unfold report_parity, pymod. cbn [Z.eqb bind]. rewrite Hn.
  destruct (Z.eqb_spec (m mod 2) 0) as [H0|H0]; cbn [negb].
  - left. split; [reflexivity|].
    apply NatTheory.prime_powers_complete; [exact Hwf|exact prime_two|].
    rewrite Hprod. apply Z.mod_divide; [lia|exact H0].
  - right. split; [reflexivity|]. intros Hin. apply H0.
    apply Z.mod_divide; [lia|]. rewrite <- Hprod. apply key_divides; assumption.
Qed.

Lemma X4_parity_label_witness :
  1 <= 945 /\
  exists a, constructed 945 a /\
    (report_parity a = Return "EVEN"%string /\ In 2 (keys (_factors a)) \/
     report_parity a = Return "ODD"%string /\ ~ In 2 (keys (_factors a))).
Proof.
  split; [lia|]. apply (X4_parity_label 945). lia.
Defined.

(** ** The order of the entries does not matter *)

Lemma dict_prod_perm (fs gs : dict) :
  Permutation fs gs -> dict_prod fs = dict_prod gs.
Proof.
  induction 1 as [|[p e] l l' _ IH|[p e] [q f] l|l l' l'' _ IH1 _ IH2];
    cbn [dict_prod]; [reflexivity|rewrite IH; reflexivity|ring|congruence].
Qed.

Lemma phi_prod_perm (fs gs : dict) :
  Permutation fs gs -> phi_prod fs = phi_prod gs.
Proof.
  induction 1 as [|[p e] l l' _ IH|[p e] [q f] l|l l' l'' _ IH1 _ IH2];
    cbn [phi_prod]; [reflexivity|rewrite IH; reflexivity|ring|congruence].
Qed.

Lemma sigma_prod_perm (fs gs : dict) :
  Permutation fs gs -> sigma_prod fs = sigma_prod gs.
Proof.
  induction 1 as [|[p e] l l' _ IH|[p e] [q f] l|l l' l'' _ IH1 _ IH2];
    cbn [sigma_prod]; [reflexivity|rewrite IH; reflexivity|ring|congruence].
Qed.

(** X5.  [_calculate_phi] and [_calculate_sigma] do not depend on the order
    in which the dictionary yields its entries: run on any permutation of
    the factor mapping of [m >= 1] they return the cached [phi_val] and
    [sigma_val]. *)
Theorem X5_entry_order (m : Z) :
  1 <= m ->
  exists a, constructed m a /\
    forall factors',
      Permutation (_factors a) factors' ->
      _calculate_phi m factors' = Return (phi_val a) /\
      _calculate_sigma factors' = Return (sigma_val a).
Proof.
  intros Hm. destruct (constructed_exists m Hm) as [a Ha].
  exists a. split; [exact Ha|]. intros fs' Hperm.
  destruct (constructed_spec m a Ha) as (_ & Hprod & Hwf & Hphi & Hsig).
  pose proof (prime_powers_bounds _ Hwf) as Hb.
  assert (Hb' : Forall (fun pe => 2 <= fst pe /\ 1 <= snd pe) fs').
  { eapply Permutation_Forall; eassumption. }
  split.
  - unfold _calculate_phi. pose proof (phi_loop_spec fs' Hb' 1) as H.
    rewrite !Z.mul_1_l in H.
    rewrite <- (dict_prod_perm _ _ Hperm), Hprod in H.
    rewrite H, Hphi, (phi_prod_perm _ _ Hperm). reflexivity.
  - unfold _calculate_sigma, items. rewrite (sigma_loop_spec fs' Hb' 1).
    rewrite Z.mul_1_l, Hsig, (sigma_prod_perm _ _ Hperm). reflexivity.
Qed.

Lemma X5_entry_order_witness :
  1 <= 28 /\
  exists a, constructed 28 a /\
    forall factors',
      Permutation (_factors a) factors' ->
      _calculate_phi 28 factors' = Return (phi_val a) /\
      _calculate_sigma factors' = Return (sigma_val a).
Proof.
  split; [lia|]. apply (X5_entry_order 28). lia.
Defined.

(** ** Keys come out in ascending order *)

Lemma sorted_snoc (l : list Z) (d : Z) :
  StronglySorted Z.lt l -> Forall (fun x => x < d) l ->
  StronglySorted Z.lt (l ++ [d]).
Proof.
  induction l as [|x l IH]; intros Hs Hall; cbn [app].
  - constructor; constructor.
  - inversion Hs as [|y l' Hs' Hx]; subst. inversion Hall as [|y l' Hxd Hall']; subst.
    constructor; [apply IH; assumption|].
    apply Forall_app. split; [exact Hx|constructor; [exact Hxd|constructor]].
Qed.

Lemma keys_app (fs gs : dict) : keys (fs ++ gs) = keys fs ++ keys gs.
Proof. unfold keys. apply map_app. Qed.

Lemma incr_sorted (factors : dict) (d : Z) :
  StronglySorted Z.lt (keys factors) ->
  Forall (fun x => x <= d) (keys factors) ->
  StronglySorted Z.lt (keys (dict_set factors d (dict_get factors d 0 + 1))) /\
  Forall (fun x => x <= d) (keys (dict_set factors d (dict_get factors d 0 + 1))).
Proof.
  intros Hs Hall.
  destruct (in_dec Z.eq_dec d (keys factors)) as [Hin|Hnotin].
  - rewrite keys_dict_set_present by exact Hin. split; assumption.
  - rewrite dict_set_absent by exact Hnotin. rewrite keys_app. cbn [keys map fst].
    split.
    + apply sorted_snoc; [exact Hs|].
      apply Forall_forall. intros x Hx.
      pose proof (proj1 (Forall_forall _ _) Hall x Hx) as Hle.
      cbn beta in Hle.
      assert (x <> d) by (intros ->; tauto). lia.
    + apply Forall_app. split; [exact Hall|constructor; [lia|constructor]].
Qed.

Lemma inner_loop_sorted (fuel : nat) :
  forall (factors : dict) (d temp : Z) (factors' : dict) (temp' : Z),
    inner_loop fuel factors d temp = Return (factors', temp') ->
    StronglySorted Z.lt (keys factors) ->
    Forall (fun x => x <= d) (keys factors) ->
    StronglySorted Z.lt (keys factors') /\
    Forall (fun x => x <= d) (keys factors').
Proof.
  induction fuel as [|fuel IH]; intros fs d temp fs' temp' Hrun Hs Hall;
    [discriminate|].
  cbn [inner_loop] in Hrun. unfold pymod, floordiv in Hrun.
  destruct (d =? 0); [discriminate|]. cbn [bind] in Hrun.
  destruct (temp mod d =? 0).
  - destruct (incr_sorted fs d Hs Hall) as [Hs1 Hall1].
    eapply IH; eassumption.
  - inversion Hrun; subst. split; assumption.
Qed.

Lemma outer_loop_sorted (fuel : nat) :
  forall (factors : dict) (d temp : Z) (factors' : dict) (temp' : Z),
    outer_loop fuel factors d temp = Return (factors', temp') ->
    StronglySorted Z.lt (keys factors) ->
    Forall (fun x => x < d) (keys factors) ->
    StronglySorted Z.lt (keys factors').
Proof.
  induction fuel as [|fuel IH]; intros fs d temp fs' temp' Hrun Hs Hall;
    [discriminate|].
  cbn [outer_loop] in Hrun.
  destruct (d * d <=? temp).
  - destruct (inner_loop fuel fs d temp) as [[fs1 t1]|e|] eqn:Hin;
      cbn [bind] in Hrun; [|discriminate|discriminate].
    destruct (inner_loop_sorted fuel fs d temp fs1 t1 Hin Hs) as [Hs1 Hall1].
    { eapply Forall_impl; [|exact Hall]. cbn. intros; lia. }
    eapply IH; [exact Hrun|exact Hs1|].
    eapply Forall_impl; [|exact Hall1]. cbn. intros; lia.
  - inversion Hrun; subst. exact Hs.
Qed.

Lemma _get_prime_factors_sorted (m : Z) :
  1 <= m ->
  exists fuel factors,
    _get_prime_factors fuel m = Return factors /\
    StronglySorted Z.lt (keys factors).
Proof.
  intros Hm.
  destruct (outer_loop_spec m (Z.to_nat (m + 1 - 2)) [] 2 m (le_n _))
    as (fuel & fs & t & Hrun & Hp & Hwf & Hend).
  - split; [lia|exact Hm|cbn [dict_prod]; lia|split; constructor|intros k Hk; lia].
  - intros x [].
  - assert (Hs : StronglySorted Z.lt (keys fs)).
    { eapply outer_loop_sorted; [exact Hrun|constructor|constructor]. }
    exists fuel. unfold _get_prime_factors. rewrite Hrun. cbn [bind].
    destruct Hend as [->|[Hprime Hkeys]].
    + exists fs. split; [reflexivity|exact Hs].
    + pose proof (Z.prime_ge_2 t Hprime) as Ht.
      replace (t >? 1) with true by (symmetry; apply Z.gtb_lt; lia).
      eexists. split; [reflexivity|].
      apply incr_sorted; [exact Hs|].
      apply Forall_forall. intros x Hx. specialize (Hkeys x Hx). lia.
Qed.

(** X6.  The keys of the factor mapping come out of [_get_prime_factors] in
    strictly ascending order: for every [m >= 1] the list of keys of
    [_factors], in insertion order, is strictly increasing. *)
Theorem X6_keys_ascending (m : Z) :
  1 <= m ->
  exists a, constructed m a /\ StronglySorted Z.lt (keys (_factors a)).
Proof.
  intros Hm.
  destruct (_get_prime_factors_sorted m Hm) as (f1 & fs & Hrun1 & Hs).
  destruct (init_steps m Hm) as (f2 & a & Hinit & _ & Hrun2 & _).
  exists a. split; [exists f2; exact Hinit|].
  assert (E1 : _get_prime_factors (Nat.max f1 f2) m = Return fs).
  { apply (_get_prime_factors_mono f1); [exact Hrun1|discriminate|apply Nat.le_max_l]. }
  assert (E2 : _get_prime_factors (Nat.max f1 f2) m = Return (_factors a)).
  { apply (_get_prime_factors_mono f2); [exact Hrun2|discriminate|apply Nat.le_max_r]. }
  rewrite E1 in E2. inversion E2; subst. exact Hs.
Qed.

Lemma X6_keys_ascending_witness :
  1 <= 8128 /\
  exists a, constructed 8128 a /\ StronglySorted Z.lt (keys (_factors a)).
Proof.
  split; [lia|]. apply (X6_keys_ascending 8128). lia.
Defined.

(** ** The empty mapping *)

(** X7.  [_get_prime_factors] returns the empty mapping exactly on
    arguments [m <= 1]: on such an argument, zero and the negative integers
    included, neither loop body runs and the result is [{}]; on no
    [m >= 2] is the result empty. *)
Theorem X7_empty_mapping (m : Z) (fuel : nat) :
  (m <= 1 -> _get_prime_factors (S fuel) m = Return []) /\
  (_get_prime_factors fuel m = Return [] -> m <= 1).
Proof.
  split.
  - intros Hm. unfold _get_prime_factors. cbn [outer_loop].
    replace (2 * 2 <=? m) with false by (symmetry; apply Z.leb_gt; lia).
    cbn [bind].
    replace (m >? 1) with false
      by (symmetry; rewrite Z.gtb_ltb; apply Z.ltb_ge; lia).
    reflexivity.
  - intros Hrun. destruct (Z_le_gt_dec m 1) as [Hle|Hgt]; [exact Hle|].
    exfalso.
    destruct (_get_prime_factors_spec m) as (fuel2 & fs & Hrun2 & Hp & _);
      [lia|].
    assert (E1 : _get_prime_factors (Nat.max fuel fuel2) m = Return []).
    { apply (_get_prime_factors_mono fuel);
        [exact Hrun|discriminate|apply Nat.le_max_l]. }
    assert (E2 : _get_prime_factors (Nat.max fuel fuel2) m = Return fs).
    { apply (_get_prime_factors_mono fuel2);
        [exact Hrun2|discriminate|apply Nat.le_max_r]. }
    rewrite E1 in E2. injection E2 as <-. cbn [dict_prod] in Hp. lia.
Qed.

(** ** The product of the two values *)

Lemma phi_sigma_step (p e : Z) :
  2 <= p -> 1 <= e ->
  0 <= (p - 1) * p ^ (e - 1) * geom_sum p (Z.to_nat e) <= p ^ e * p ^ e.
Proof.
  intros Hp He.
  pose proof (geom_sum_closed p (Z.to_nat e)) as Hg. rewrite Z2Nat.id in Hg by lia.
  assert (Hpe : p ^ e = p * p ^ (e - 1)).
  { replace e with (1 + (e - 1)) at 1 by ring.
    rewrite Z.pow_add_r by lia. rewrite Z.pow_1_r. reflexivity. }
  assert (Hpe1 : p ^ (e + 1) = p * p ^ e).
  { replace (e + 1) with (1 + e) by ring.
    rewrite Z.pow_add_r by lia. rewrite Z.pow_1_r. reflexivity. }
  assert (H0 : 0 < p ^ (e - 1)) by (apply Z.pow_pos_nonneg; lia).
  replace ((p - 1) * p ^ (e - 1) * geom_sum p (Z.to_nat e))
    with (p ^ (e - 1) * ((p - 1) * geom_sum p (Z.to_nat e))) by ring.
  rewrite Hg, Hpe1. nia.
Qed.

Lemma phi_sigma_prod_le (factors : dict) :
  Forall (fun pe => 2 <= fst pe /\ 1 <= snd pe) factors ->
  0 <= phi_prod factors * sigma_prod factors
    <= dict_prod factors * dict_prod factors.
Proof.
  induction factors as [|[p e] rest IH]; intros Hall.
  - cbn. lia.
  - inversion Hall as [|x l [Hp He] Hrest]; subst. cbn [fst snd] in Hp, He.
    specialize (IH Hrest). cbn [phi_prod sigma_prod dict_prod].
    pose proof (phi_sigma_step p e Hp He) as Hstep.
    replace ((p - 1) * p ^ (e - 1) * phi_prod rest
             * (geom_sum p (Z.to_nat e) * sigma_prod rest))
      with (((p - 1) * p ^ (e - 1) * geom_sum p (Z.to_nat e))
            * (phi_prod rest * sigma_prod rest)) by ring.
    replace (p ^ e * dict_prod rest * (p ^ e * dict_prod rest))
      with ((p ^ e * p ^ e) * (dict_prod rest * dict_prod rest)) by ring.
    split; [apply Z.mul_nonneg_nonneg; lia|].
    apply Z.mul_le_mono_nonneg; lia.
Qed.

(** X8.  For every [m >= 1] the two cached values satisfy
    [phi_val * sigma_val <= n * n]. *)
Theorem X8_product_bound (m : Z) :
  1 <= m ->
  exists a, constructed m a /\ phi_val a * sigma_val a <= n a * n a.
Proof.
  intros Hm. destruct (constructed_exists m Hm) as [a Ha].
  exists a. split; [exact Ha|].
  destruct (constructed_spec m a Ha) as (Hn & Hprod & Hwf & Hphi & Hsig).
  rewrite Hphi, Hsig, Hn. rewrite <- Hprod at 1 2.
  apply phi_sigma_prod_le. apply prime_powers_bounds. exact Hwf.
Qed.

Lemma X8_product_bound_witness :
  1 <= 945 /\
  exists a, constructed 945 a /\ phi_val a * sigma_val a <= n a * n a.
Proof.
  split; [lia|]. apply (X8_product_bound 945). lia.
Defined.

(** ** Primes, read off the two values *)

Lemma sum_ge_two (l : list Z) (x y : Z) :
  Forall (fun z => 0 <= z) l -> In x l -> In y l -> x <> y ->
  x + y <= fold_right Z.add 0 l.
Proof.
  induction l as [|z l IH]; intros Hall Hx Hy Hne; [destruct Hx|].
  inversion Hall as [|z' l' Hz Hl]; subst. cbn [fold_right].
  destruct Hx as [->|Hx], Hy as [->|Hy].
  - congruence.
  - pose proof (sum_ge_member l y Hl Hy). lia.
  - pose proof (sum_ge_member l x Hl Hx). lia.
  - specialize (IH Hl Hx Hy Hne). lia.
Qed.

Lemma filter_length_lt (f : Z -> bool) (l : list Z) (x : Z) :
  In x l -> f x = false -> (List.length (filter f l) < List.length l)%nat.
Proof.
  induction l as [|y l IH]; intros Hin Hf; [destruct Hin|].
  cbn [filter List.length]. pose proof (filter_length_le f l) as Hle.
  destruct Hin as [->|Hin].
  - rewrite Hf. lia.
  - specialize (IH Hin Hf). destruct (f y); cbn [List.length]; lia.
Qed.

(** A proper divisor [d] of [m] costs the count a second miss and gives
    the sum a third term. *)
Lemma proper_divisor_values (m d : Z) :
  1 < d < m -> (d | m) ->
  coprime_count m < m - 1 /\ m + 1 < divisor_sum m.
Proof.
  intros Hd Hdiv. split.
  - unfold coprime_count. rewrite range1_succ by lia.
    rewrite filter_app. cbn [filter].
    replace (Z.gcd m m =? 1) with false.
    2:{ symmetry. apply Z.eqb_neq. rewrite Z.gcd_diag. lia. }
    rewrite app_nil_r.
    assert (Hf : (Z.gcd d m =? 1) = false).
    { apply Z.eqb_neq. rewrite (proj1 (Z.divide_gcd_iff d m ltac:(lia)) Hdiv). lia. }
    pose proof (filter_length_lt (fun k => Z.gcd k m =? 1) (range1 (m - 1)) d) as Hlt.
    cbn beta in Hlt. specialize (Hlt ltac:(apply range1_In; lia) Hf).
    pose proof (range1_length (m - 1)) as Hlen. lia.
  - unfold divisor_sum. rewrite range1_succ by lia.
    rewrite filter_app, sum_app. cbn [filter].
    replace (m mod m =? 0) with true by (symmetry; apply Z.eqb_eq; apply Z.mod_same; lia).
    cbn [fold_right].
    assert (H1 : 1 + d <= fold_right Z.add 0
                  (filter (fun k => m mod k =? 0) (range1 (m - 1)))).
    { apply sum_ge_two.
      - apply Forall_forall. intros y Hy. apply filter_In in Hy.
        destruct Hy as [Hy _]. apply range1_In in Hy. lia.
      - apply filter_In. split; [apply range1_In; lia|].
        apply Z.eqb_eq. apply Z.mod_1_r.
      - apply filter_In. split; [apply range1_In; lia|].
        apply Z.eqb_eq. apply Z.mod_divide; [lia|exact Hdiv].
      - lia. }
    lia.
Qed.

(** X9.  The cached values tell primes apart: for every [m >= 2], [m] is
    prime if and only if [phi_val = n - 1], and if and only if
    [sigma_val = n + 1]. *)
Theorem X9_prime_values (m : Z) :
  2 <= m ->
  exists a, constructed m a /\
    (Z.prime m <-> phi_val a = n a - 1) /\
    (Z.prime m <-> sigma_val a = n a + 1).
Proof.
  intros Hm. destruct (constructed_exists m) as [a Ha]; [lia|].
  exists a. split; [exact Ha|].
  destruct (constructed_spec m a Ha) as (Hn & _).
  rewrite (constructed_phi m a Ha), (constructed_sigma m a Ha), Hn.
  split; split.
  - intros Hp. pose proof (coprime_count_prime_power m 1 Hp) as H.
    rewrite Z.pow_1_r, Z.sub_diag, Z.pow_0_r in H. rewrite H by lia. ring.
  - intros Hphi. split; [lia|]. intros d Hd Hdiv.
    destruct (proper_divisor_values m d Hd Hdiv) as [H _]. lia.
  - intros Hp. pose proof (divisor_sum_prime_power m 1 Hp) as H.
    rewrite Z.pow_1_r in H. rewrite H by lia.
    change (Z.to_nat 1) with 1%nat. cbn [geom_sum Z.of_nat].
    change (Z.of_nat 1) with 1. rewrite Z.pow_1_r. ring.
  - intros Hsig. split; [lia|]. intros d Hd Hdiv.
    destruct (proper_divisor_values m d Hd Hdiv) as [_ H]. lia.
Qed.

Lemma X9_prime_values_witness :
  2 <= 13 /\
  exists a, constructed 13 a /\
    (Z.prime 13 <-> phi_val a = n a - 1) /\
    (Z.prime 13 <-> sigma_val a = n a + 1).
Proof.
  split; [lia|]. apply (X9_prime_values 13). lia.
Defined.

(** ** Exact quotients in binary64

    When the numerator is twice or four times the denominator, the
    correctly rounded quotient is the double 2.0 or 4.0, whatever the size
    of the two integers. *)

Lemma div_eucl_multiple (b : positive) :
  Z.div_eucl (2 ^ 53 * Z.pos b) (Z.pos b) = (2 ^ 53, 0).
Proof.
  pose proof (Z.div_eucl_eq (2 ^ 53 * Z.pos b) (Z.pos b)) as H.
  pose proof (Z.mod_pos_bound (2 ^ 53 * Z.pos b) (Z.pos b)) as Hb.
  unfold Z.modulo in Hb.
  destruct (Z.div_eucl (2 ^ 53 * Z.pos b) (Z.pos b)) as [q r].
  assert (Hq : q = 2 ^ 53) by nia. assert (Hr : r = 0) by nia.
  subst. reflexivity.
Qed.

Lemma SFdiv_double (b : positive) :
  SFdiv prec emax (S754_finite false b~0 0) (S754_finite false b 0) = float_of_Z 2.
Proof.
  unfold SFdiv, SFdiv_core_binary.
  change (Zdigits2 (Z.pos b~0)) with (Z.pos (Pos.succ (digits2_pos b))).
  change (Zdigits2 (Z.pos b)) with (Z.pos (digits2_pos b)).
  replace (Z.pos (Pos.succ (digits2_pos b)) + 0 - (Z.pos (digits2_pos b) + 0)) with 1 by lia.
  change (Z.min (fexp prec emax 1) (0 - 0)) with (-52).
  change (0 - 0 - -52) with 52.
  cbv beta iota zeta.
  replace (Z.shiftl (Z.pos b~0) 52) with (2 ^ 53 * Z.pos b).
  2:{ rewrite Z.shiftl_mul_pow2 by lia. lia. }
  rewrite div_eucl_multiple.
  replace (new_location (Z.pos b) 0) with loc_Exact.
  2:{ unfold new_location. destruct (Z.even (Z.pos b)); reflexivity. }
  vm_compute. reflexivity.
Qed.

Lemma SFdiv_quadruple (b : positive) :
  SFdiv prec emax (S754_finite false b~0~0 0) (S754_finite false b 0) = float_of_Z 4.
Proof.
  unfold SFdiv, SFdiv_core_binary.
  change (Zdigits2 (Z.pos b~0~0)) with (Z.pos (Pos.succ (Pos.succ (digits2_pos b)))).
  change (Zdigits2 (Z.pos b)) with (Z.pos (digits2_pos b)).
  replace (Z.pos (Pos.succ (Pos.succ (digits2_pos b))) + 0 - (Z.pos (digits2_pos b) + 0))
    with 2 by lia.
  change (Z.min (fexp prec emax 2) (0 - 0)) with (-51).
  change (0 - 0 - -51) with 51.
  cbv beta iota zeta.
  replace (Z.shiftl (Z.pos b~0~0) 51) with (2 ^ 53 * Z.pos b).
  2:{ rewrite Z.shiftl_mul_pow2 by lia. lia. }
  rewrite div_eucl_multiple.
  replace (new_location (Z.pos b) 0) with loc_Exact.
  2:{ unfold new_location. destruct (Z.even (Z.pos b)); reflexivity. }
  vm_compute. reflexivity.
Qed.

(** X10.  On a constructed instance with [sigma_val = 2 * n], that is on
    every perfect number, [perfection_ratio] returns the double 2.0
    exactly, whatever the size of [n]. *)
Theorem X10_perfect_ratio_two (m : Z) (a : TPEPAnalyzer) :
  constructed m a -> sigma_val a = 2 * n a ->
  perfection_ratio a = Return (float_of_Z 2).
Proof.
  intros Ha Hsig. pose proof (constructed_pos m a Ha) as Hm.
  destruct (constructed_spec m a Ha) as (Hn & _).
  unfold perfection_ratio, true_divide. rewrite Hsig, Hn.
  destruct m as [|b|b]; [lia| |lia].
  cbn [Z.eqb Z.mul Z2SF Pos.mul]. rewrite SFdiv_double. reflexivity.
Qed.

Lemma X10_perfect_ratio_two_witness :
  constructed 28 (mkTPEPAnalyzer 28 [(2, 2); (7, 1)] 12 56) /\
  56 = 2 * 28 /\
  perfection_ratio (mkTPEPAnalyzer 28 [(2, 2); (7, 1)] 12 56)
  = Return (float_of_Z 2).
Proof.
  assert (H : constructed 28 (mkTPEPAnalyzer 28 [(2, 2); (7, 1)] 12 56))
    by (exists 10%nat; reflexivity).
  split; [exact H|]. split; [reflexivity|].
  apply (X10_perfect_ratio_two 28 _ H). reflexivity.
Defined.

(** X11.  On a constructed instance with [sigma_val = 4 * phi_val],
    [tpep_ratio] returns the double 4.0 exactly and [report] gives the
    status [PERFECT (Stable)]; the odd number 105, which is not perfect, is
    such an instance. *)
Theorem X11_stable_status (m : Z) (a : TPEPAnalyzer) :
  constructed m a -> sigma_val a = 4 * phi_val a ->
  tpep_ratio a = Return (float_of_Z 4) /\
  report_status a = Return "PERFECT (Stable)"%string.
Proof.
  intros Ha Hsig. pose proof (constructed_pos m a Ha) as Hm.
  pose proof (constructed_phi m a Ha) as Hphi.
  pose proof (coprime_count_bounds m Hm) as Hb.
  assert (E : tpep_ratio a = Return (float_of_Z 4)).
  { unfold tpep_ratio, true_divide. rewrite Hsig.
    destruct (phi_val a) as [|b|b]; [lia| |lia].
    cbn [Z.eqb Z.mul Z2SF Pos.mul]. rewrite SFdiv_quadruple. reflexivity. }
  split; [exact E|]. unfold report_status. rewrite E. reflexivity.
Qed.

Lemma X11_stable_status_witness :
  constructed 105 (mkTPEPAnalyzer 105 [(3, 1); (5, 1); (7, 1)] 48 192) /\
  192 = 4 * 48 /\
  tpep_ratio (mkTPEPAnalyzer 105 [(3, 1); (5, 1); (7, 1)] 48 192)
  = Return (float_of_Z 4) /\
  report_status (mkTPEPAnalyzer 105 [(3, 1); (5, 1); (7, 1)] 48 192)
  = Return "PERFECT (Stable)"%string.
Proof.
  assert (H : constructed 105
                (mkTPEPAnalyzer 105 [(3, 1); (5, 1); (7, 1)] 48 192))
    by (exists 10%nat; reflexivity).
  split; [exact H|]. split; [reflexivity|].
  apply (X11_stable_status 105 _ H). reflexivity.
Defined.
